(** * Leveled compaction of filesets: a shallow embedding

    This development embeds [src/internal/storage/fileset/compaction.go]:
    the compaction predicate ([indexOfCompacted], [isCompacted],
    [Storage.IsCompacted]), the sequential compactor ([Storage.Compact])
    and the distributed compactor ([DistributedCompactor.Compact],
    [shardedCompact]).

    The functions of [compaction.go] are translated statement by statement.
    The collaborators they call ([store.Get], [PointsTo], [Flatten],
    [getPrimitive], [Compose], [Merge], [Concat], [Shard]) live in other
    files of the package; they are modelled from the specification and are
    marked as such. *)

From Stdlib Require Import ZArith String Lia.
From stdpp Require Import base option list gmap.

Local Open Scope Z_scope.

(** ** Go machine integers

    [int64] (and [int] on the 64-bit targets the server is built for) is a
    two's complement 64-bit integer.  Values are carried as [Z]; every
    arithmetic operation that can leave the range wraps explicitly. *)

Definition int64_max : Z := 2 ^ 63 - 1.
Definition int64_min : Z := - 2 ^ 63.

Definition in_int64 (z : Z) : Prop := int64_min <= z <= int64_max.

Definition wrap64 (z : Z) : Z := (z + 2 ^ 63) mod 2 ^ 64 - 2 ^ 63.

Definition int64_mul (a b : Z) : Z := wrap64 (a * b).
Definition int64_add (a b : Z) : Z := wrap64 (a + b).

(** [len(x)] as a Go [int]. *)
Definition len {A : Type} (l : list A) : Z := Z.of_nat (length l).

(** ** Outcomes of a call

    A Go call returns a value, returns a non-nil [error], or panics.  The
    fourth outcome, [OutOfFuel], belongs to the embedding: recursive
    functions and loops carry a step budget, and a computation that returns
    [OutOfFuel] for every budget is one that never returns. *)

Definition ID : Type := nat.
Definition Path : Type := N.

Inductive error : Type :=
  | Errorf (msg : string)          (* errors.Errorf of this file *)
  | ErrLookup (id : ID)            (* the metadata store cannot read [id] *)
  | ErrResolution                  (* a composite's pointer list is malformed *)
  | ErrNotPrimitive (id : ID)      (* a primitive was expected at [id] *)
  | ErrExternal (msg : string).    (* anything else a collaborator reports *)

Inductive Result (A : Type) : Type :=
  | Ok (a : A)
  | Err (e : error)
  | Panic (msg : string)
  | OutOfFuel.

Arguments Ok {A} a.
Arguments Err {A} e.
Arguments Panic {A} msg.
Arguments OutOfFuel {A}.

Definition rbind {A B : Type} (r : Result A) (k : A -> Result B) : Result B :=
  match r with
  | Ok a => k a
  | Err e => Err e
  | Panic msg => Panic msg
  | OutOfFuel => OutOfFuel
  end.

(** ** Data model *)

(** Modelled from the spec: [Primitive], a leaf layer.  [SizeBytes] is the
    [int64] field [indexOfCompacted] reads; [body] is the path-indexed body,
    kept as the set of paths the layer holds. *)
Record Primitive : Type := mkPrimitive {
  SizeBytes : Z;
  body : gset Path;
}.

(** Modelled from the spec: [Composite], an ordered pointer list.  Each
    entry either decodes to an [ID] or is malformed ([None]). *)
Record Composite : Type := mkComposite {
  Layers : list (option ID);
}.

(** Modelled from the spec: [Metadata], a tagged union.  The constructors
    are the three cases of the type switch on [md.Value] in [IsCompacted]:
    a composite, a primitive, and no variant set. *)
Inductive Metadata : Type :=
  | Metadata_Primitive (Primitive_ : Primitive)
  | Metadata_Composite (Composite_ : Composite)
  | Metadata_nil.

(** Modelled from the spec: [index.PathRange], a key-range descriptor, lower
    bound inclusive, upper bound exclusive, [None] for an open end. *)
Record PathRange : Type := mkPathRange {
  Lower : option Path;
  Upper : option Path;
}.

Definition inRange (r : PathRange) (p : Path) : bool :=
  match Lower r with Some lo => (lo <=? p)%N | None => true end
  && match Upper r with Some hi => (p <? hi)%N | None => true end.

(** [CompactionTask] (compaction.go, lines 100-103). *)
Record CompactionTask : Type := mkCompactionTask {
  Inputs : list ID;
  PathRange_ : PathRange;
}.

(** ** The world a call runs in *)

(** The calls made to the storage capabilities that write or plan work. *)
Inductive Call : Type :=
  | CallCompose (ids : list ID)
  | CallMerge (ids : list ID)
  | CallConcat (ids : list ID)
  | CallShard (ids : list ID).

(** Modelled from the spec: the metadata store.  Filesets are immutable and
    every write creates a new reference, so [store] is an append-only table:
    the [ID] of a fileset is its position in the table, and a new fileset
    takes the next free position.  [calls] records the calls made so far, in
    order. *)
Record State : Type := mkState {
  store : list Metadata;
  calls : list Call;
}.

Definition M (A : Type) : Type := State -> Result A * State.

Definition ret {A : Type} (a : A) : M A := fun st => (Ok a, st).

Definition bind {A B : Type} (m : M A) (k : A -> M B) : M B :=
  fun st =>
    match m st with
    | (Ok a, st') => k a st'
    | (Err e, st') => (Err e, st')
    | (Panic msg, st') => (Panic msg, st')
    | (OutOfFuel, st') => (OutOfFuel, st')
    end.

Definition lift {A : Type} (r : Result A) : M A := fun st => (r, st).

(** A read of the store: the state is left as it is. *)
Definition reading {A : Type} (f : list Metadata -> Result A) : M A :=
  fun st => (f (store st), st).

Definition called (c : Call) : M unit :=
  fun st => (Ok tt, {| store := store st; calls := calls st ++ [c] |}).

(** Append a new fileset and return its reference. *)
Definition create (md : Metadata) : M ID :=
  fun st => (Ok (length (store st)),
             {| store := store st ++ [md]; calls := calls st |}).

Declare Scope go_scope.
Delimit Scope go_scope with go.
Notation "'let*' x := m 'in' k" := (bind m (fun x => k))
  (at level 20, x name, m at level 100, k at level 200, right associativity)
  : go_scope.
Notation "'let?' x := r 'in' k" := (rbind r (fun x => k))
  (at level 20, x name, r at level 100, k at level 200, right associativity).

(** Modelled from the spec: [Storage], the receiver [s] with the fixed
    configuration of a store.  [levelFactor] is the field read by
    [IsCompacted] and [Compact].  The two other fields stand for the
    content-dependent choices of the write path: the serialized size of a
    layer written from the given layers, and the path ranges [Shard] cuts a
    key space into. *)
Record Storage : Type := mkStorage {
  levelFactor : Z;
  writeSize : list Primitive -> Z;
  shardRanges : gset Path -> list PathRange;
}.

(** ** Collaborators of compaction.go *)

(** Modelled from the spec: [store.Get(id)], which fails when the reference
    cannot be read. *)
Definition Get (st : list Metadata) (id : ID) : Result Metadata :=
  match st !! id with
  | Some md => Ok md
  | None => Err (ErrLookup id)
  end.

(** Modelled from the spec: the decoding of a pointer list, entry by entry;
    it stops at the first malformed entry. *)
Fixpoint decodeLayers (ls : list (option ID)) : Result (list ID) :=
  match ls with
  | [] => Ok []
  | Some id :: rest => let? ids := decodeLayers rest in Ok (id :: ids)
  | None :: _ => Err ErrResolution
  end.

(** Modelled from the spec: [Composite.PointsTo()], the ordered sequence of
    references, or a resolution error when the pointer list is malformed. *)
Definition PointsTo (c : Composite) : Result (list ID) := decodeLayers (Layers c).

(** Modelled from the spec: [Flatten], which expands every composite
    transitively, depth first and in place, until only primitive references
    remain.  A reference that is neither a primitive nor a composite cannot
    be flattened.  [flattenEach sub] walks one pointer list and uses [sub]
    for the pointer list of a nested composite; [flattenDepth d] nests at
    most [d] levels. *)
Fixpoint flattenEach (sub : list ID -> Result (list ID))
    (st : list Metadata) (ids : list ID) : Result (list ID) :=
  match ids with
  | [] => Ok []
  | id :: rest =>
    let? md := Get st id in
    match md with
    | Metadata_Primitive _ =>
      let? out := flattenEach sub st rest in Ok (id :: out)
    | Metadata_Composite c =>
      let? ptrs := PointsTo c in
      let? inner := sub ptrs in
      let? out := flattenEach sub st rest in Ok (inner ++ out)
    | Metadata_nil => Err (Errorf "Flatten is not defined for empty filesets")
    end
  end.

(** Modelled from the spec: [Flatten] nesting at most [d] levels. *)
Fixpoint flattenDepth (d : nat) (st : list Metadata) (ids : list ID)
    : Result (list ID) :=
  match d with
  | O => OutOfFuel
  | S d' => flattenEach (flattenDepth d' st) st ids
  end.

(** Modelled from the spec: [Flatten] on a store.  References point at
    filesets created earlier, so nesting is never deeper than the number of
    filesets in the store. *)
Definition flattenStore (st : list Metadata) (ids : list ID) : Result (list ID) :=
  flattenDepth (S (length st)) st ids.

(** Modelled from the spec: [Storage.Flatten] as a call: a read of the
    store. *)
Definition Flatten (ids : list ID) : M (list ID) :=
  reading (fun st => flattenStore st ids).

(** Modelled from the spec: [getPrimitive], the primitive stored at [id]. *)
Definition primitiveAt (st : list Metadata) (id : ID) : Result Primitive :=
  let? md := Get st id in
  match md with
  | Metadata_Primitive p => Ok p
  | _ => Err (ErrNotPrimitive id)
  end.

(** Modelled from the spec: [Storage.getPrimitive] as a call: a read of the
    store. *)
Definition getPrimitive (id : ID) : M Primitive :=
  reading (fun st => primitiveAt st id).

(** The paths held by a list of layers. *)
Definition bodies (layers : list Primitive) : gset Path :=
  ⋃ (body <$> layers).

(** The primitives a list of references points at, in order. *)
Fixpoint primitivesOf (st : list Metadata) (ids : list ID) : Result (list Primitive) :=
  match ids with
  | [] => Ok []
  | id :: rest =>
    let? prim := primitiveAt st id in
    let? layers := primitivesOf st rest in
    Ok (prim :: layers)
  end.

(** The layers a list of references stands for: flatten, then read every
    primitive (what [Flatten] followed by [getPrimitiveBatch] computes). *)
Definition layersOf (st : list Metadata) (ids : list ID) : Result (list Primitive) :=
  let? flat := flattenStore st ids in primitivesOf st flat.

(** Modelled from the spec: [Compose], "build a new composite pointing at
    existing references, no data movement". *)
Definition Compose (s : Storage) (ids : list ID) : M ID :=
  (let* _ := called (CallCompose ids) in
   create (Metadata_Composite {| Layers := Some <$> ids |}))%go.

(** Modelled from the spec: the writer behind [Merge] and [Concat], which
    combines the content of the given references into one new primitive. *)
Definition writeLayer (s : Storage) (ids : list ID) : M ID :=
  (let* layers := reading (fun st => layersOf st ids) in
   create (Metadata_Primitive
             {| SizeBytes := writeSize s layers; body := bodies layers |}))%go.

(** Modelled from the spec: [Merge], "content-combine primitive layers into
    one new primitive". *)
Definition Merge (s : Storage) (ids : list ID) : M ID :=
  (let* _ := called (CallMerge ids) in writeLayer s ids)%go.

(** Modelled from the spec: [Concat], "combine disjoint, key-sorted
    layers/results into one reference without re-sorting". *)
Definition Concat (s : Storage) (ids : list ID) : M ID :=
  (let* _ := called (CallConcat ids) in writeLayer s ids)%go.

(** Modelled from the spec: the enumeration inside [Shard]: [visit] is
    called once per range, in order, and an error it returns stops the
    enumeration.  The variables the Go closure captures are threaded through
    as [acc]. *)
Fixpoint visitRanges {A : Type} (visit : PathRange -> A -> Result A)
    (ranges : list PathRange) (acc : A) : Result A :=
  match ranges with
  | [] => Ok acc
  | r :: rest => let? acc' := visit r acc in visitRanges visit rest acc'
  end.

(** Modelled from the spec: [Shard], which cuts the key space spanned by
    [ids] into path ranges and calls [visit] once per range. *)
Definition Shard {A : Type} (s : Storage) (ids : list ID)
    (visit : PathRange -> A -> Result A) (acc : A) : M A :=
  (let* _ := called (CallShard ids) in
   let* layers := reading (fun st => layersOf st ids) in
   lift (visitRanges visit (shardRanges s (bodies layers)) acc))%go.

(** ** compaction.go *)

(** [getPrimitiveBatch] (lines 40-50): the loop appends one primitive per id
    and returns at the first error. *)
Fixpoint getPrimitiveBatch_loop (ids : list ID) (layers : list Primitive)
    : M (list Primitive) :=
  match ids with
  | [] => ret layers
  | id :: rest =>
    (let* prim := getPrimitive id in
     getPrimitiveBatch_loop rest (layers ++ [prim]))%go
  end.

Definition getPrimitiveBatch (ids : list ID) : M (list Primitive) :=
  getPrimitiveBatch_loop ids [].

(** [indexOfCompacted] (lines 61-71).  [indexOfCompacted_loop] is the [for]
    loop entered with counter [i] and [k] iterations left before [i] reaches
    [l-1]. *)
Fixpoint indexOfCompacted_loop (factor : Z) (inputs : list Primitive)
    (l : nat) (i : nat) (k : nat) : nat :=
  match k with
  | O => l
  | S k' =>
    match inputs !! i, inputs !! (i + 1)%nat with
    | Some left_, Some right_ =>
      let leftSize := SizeBytes left_ in
      let rightSize := SizeBytes right_ in
      if leftSize <? int64_mul rightSize factor
      then i
      else indexOfCompacted_loop factor inputs l (S i) k'
    | _, _ => l (* not reached: both indices are below [l] *)
    end
  end.

Definition indexOfCompacted (factor : Z) (inputs : list Primitive) : nat :=
  let l := length inputs in
  indexOfCompacted_loop factor inputs l 0 (l - 1).

(** [isCompacted] (lines 52-54). *)
Definition isCompacted (factor : Z) (layers : list Primitive) : bool :=
  bool_decide (indexOfCompacted factor layers = length layers).

(** [Storage.IsCompacted] (lines 12-38). *)
Definition Storage_IsCompacted (s : Storage) (id : ID) : M bool :=
  (let* md := reading (fun st => Get st id) in
   match md with
   | Metadata_Composite x =>
     let* ids := lift (PointsTo x) in
     let* ids := Flatten ids in
     let* layers := getPrimitiveBatch ids in
     ret (isCompacted (levelFactor s) layers)
   | Metadata_Primitive _ => ret true
   | Metadata_nil =>
     lift (Err (Errorf "IsCompacted is not defined for empty filesets"))
   end)%go.

(** [Storage.Compact] (lines 74-97).  The parameter [ids] is reassigned by
    [ids, err := s.Flatten(ctx, ids)]: from line 75 on, [ids] is the
    flattened list.  [i <= len(ids)], so the slices [ids[i:]] and [ids[:i]]
    are [drop i] and [take i]. *)
Fixpoint Storage_Compact (fuel : nat) (s : Storage) (ids : list ID) : M ID :=
  match fuel with
  | O => lift OutOfFuel
  | S fuel' =>
    (let* ids := Flatten ids in
     let* inputs := getPrimitiveBatch ids in
     let i := indexOfCompacted (levelFactor s) inputs in
     if decide (i = length inputs) then Compose s ids
     else
       let* merged := Merge s (drop i ids) in
       let ids2 := [] ++ take i ids ++ [merged] in
       Storage_Compact fuel' s ids2)%go
  end.

(** [CompactionBatchWorker] (line 109) and [DistributedCompactor] (lines
    112-116); the field [s] is called [storage] here. *)
Definition CompactionBatchWorker : Type := list CompactionTask -> M (list ID).

Record DistributedCompactor : Type := mkDistributedCompactor {
  storage : Storage;
  maxFanIn : Z;
  workerFunc : CompactionBatchWorker;
}.

Definition NewDistributedCompactor (s : Storage) (maxFanIn : Z)
    (workerFunc : CompactionBatchWorker) : DistributedCompactor :=
  {| storage := s; maxFanIn := maxFanIn; workerFunc := workerFunc |}.

(** The closure passed to [Shard] on lines 155-160: it appends one task,
    carrying the full list [ids], to the captured [tasks] and returns nil. *)
Definition appendTask (ids : list ID) (pathRange : PathRange)
    (tasks : list CompactionTask) : Result (list CompactionTask) :=
  Ok (tasks ++ [{| Inputs := ids; PathRange_ := pathRange |}]).

(** [shardedCompact] (lines 153-172). *)
Definition DistributedCompactor_shardedCompact (c : DistributedCompactor)
    (ids : list ID) : M ID :=
  (let* tasks := Shard (storage c) ids (appendTask ids) [] in
   let* results := workerFunc c tasks in
   if decide (length results ≠ length tasks)
   then lift (Err (Errorf "results are a different length than tasks"))
   else Concat (storage c) results)%go.

(** A slice expression [ids[lo:hi]] with [int] bounds; out of range bounds
    panic. *)
Definition slice {A : Type} (l : list A) (lo hi : Z) : Result (list A) :=
  if decide (0 <= lo /\ lo <= hi /\ hi <= len l)
  then Ok (take (Z.to_nat (hi - lo)) (drop (Z.to_nat lo) l))
  else Panic "slice bounds out of range".

(** The loop of lines 134-137, entered with the current [childSize].  Go's
    [/] truncates toward zero and panics on a zero divisor. *)
Fixpoint childSize_loop (fuel : nat) (n maxFanIn childSize : Z) : Result Z :=
  match fuel with
  | O => OutOfFuel
  | S fuel' =>
    if decide (childSize = 0) then Panic "integer divide by zero"
    else if Z.quot n childSize >? maxFanIn
         then childSize_loop fuel' n maxFanIn (int64_mul childSize maxFanIn)
         else Ok childSize
  end.

(** The loop of lines 139-149, entered with the current [start] and
    [results]; [compact] is the recursive call [c.Compact]. *)
Fixpoint groups_loop (compact : list ID -> M ID) (fuel : nat)
    (ids : list ID) (childSize start : Z) (results : list ID) : M (list ID) :=
  match fuel with
  | O => lift OutOfFuel
  | S fuel' =>
    if start <? len ids then
      let end_ := int64_add start childSize in
      let end_ := if end_ >? len ids then len ids else end_ in
      (let* group := lift (slice ids start end_) in
       let* id := compact group in
       groups_loop compact fuel' ids childSize (int64_add start childSize)
                   (results ++ [id]))%go
    else ret results
  end.

(** [DistributedCompactor.Compact] (lines 130-151). *)
Fixpoint DistributedCompactor_Compact (fuel : nat) (c : DistributedCompactor)
    (ids : list ID) : M ID :=
  match fuel with
  | O => lift OutOfFuel
  | S fuel' =>
    if len ids <=? maxFanIn c then DistributedCompactor_shardedCompact c ids
    else
      (let* childSize := lift (childSize_loop fuel' (len ids) (maxFanIn c) (maxFanIn c)) in
       let* results := groups_loop (DistributedCompactor_Compact fuel' c) fuel'
                    ids childSize 0 [] in
       DistributedCompactor_Compact fuel' c results)%go
  end.

(** ** A worker that runs its tasks in process *)

(** The paths of [X] that lie in the range [r]. *)
Definition restrictTo (r : PathRange) (X : gset Path) : gset Path :=
  filter (fun p => Is_true (inRange r p)) X.

(** Modelled from the spec: what a worker does with a task: it merges the
    keys of the task's path range across all of the task's inputs into one
    new layer. *)
Definition runTask (s : Storage) (t : CompactionTask) : M ID :=
  (let* layers := reading (fun st => layersOf st (Inputs t)) in
   create (Metadata_Primitive
             {| SizeBytes := writeSize s layers;
                body := restrictTo (PathRange_ t) (bodies layers) |}))%go.

(** Modelled from the spec: a batch worker that runs its tasks one after the
    other, in task order, and fails as a whole when a task fails. *)
Fixpoint localWorker (s : Storage) (tasks : list CompactionTask) : M (list ID) :=
  match tasks with
  | [] => ret []
  | t :: rest =>
    (let* id := runTask s t in
     let* ids := localWorker s rest in
     ret (id :: ids))%go
  end.

(** * Specification vocabulary *)

(** The pair [(layers[j], layers[j+1])] satisfies the compacted
    relationship (vacuously so when there is no such pair). *)
Definition pairOK (factor : Z) (layers : list Primitive) (j : nat) : Prop :=
  forall a b, layers !! j = Some a -> layers !! (j + 1)%nat = Some b ->
    SizeBytes a >= int64_mul (SizeBytes b) factor.

(** [layers] is compacted through index [i]: every consecutive pair that
    starts below [i] satisfies the relationship. *)
Definition compactedThrough (factor : Z) (layers : list Primitive) (i : nat) : Prop :=
  forall j, (j < i)%nat -> pairOK factor layers j.

(** The same pair over the integers: [left >= right * factor] without
    wrap-around. *)
Definition pairOKZ (factor : Z) (layers : list Primitive) (j : nat) : Prop :=
  forall a b, layers !! j = Some a -> layers !! (j + 1)%nat = Some b ->
    SizeBytes a >= SizeBytes b * factor.

Definition compactedThroughZ (factor : Z) (layers : list Primitive) (i : nat) : Prop :=
  forall j, (j < i)%nat -> pairOKZ factor layers j.

(** No product [size * factor] of a layer of the list leaves the [int64]
    range. *)
Definition productsFit (factor : Z) (layers : list Primitive) : Prop :=
  Forall (fun p => in_int64 (SizeBytes p * factor)) layers.

(** [id] refers to the primitive [p]. *)
Definition primitiveIn (st : list Metadata) (id : ID) (p : Primitive) : Prop :=
  st !! id = Some (Metadata_Primitive p).

(** The state a successful write of [layers] leaves behind. *)
Definition written (s : Storage) (c : Call) (layers : list Primitive) (st : State) : State :=
  {| store := store st ++
       [Metadata_Primitive {| SizeBytes := writeSize s layers; body := bodies layers |}];
     calls := calls st ++ [c] |}.

(** Acyclic stores: a composite only points at filesets created before it. *)
Definition wfStore (st : list Metadata) : Prop :=
  forall id c ptrs, st !! id = Some (Metadata_Composite c) ->
    PointsTo c = Ok ptrs -> Forall (fun p => (p < id)%nat) ptrs.

Definition isConcatCall (c : Call) : bool :=
  match c with CallConcat _ => true | _ => false end.

(** The calls to [Concat] made so far. *)
Definition concatCalls (st : State) : list Call :=
  filter (fun c => isConcatCall c = true) (calls st).

(** The content a list of references stands for: the union of the bodies of
    its flattened primitive layers. *)
Definition contentOf (st : list Metadata) (ids : list ID) : Result (gset Path) :=
  let? layers := layersOf st ids in Ok (bodies layers).

(** Modelled from the spec: the contract of [Shard], as far as content goes:
    the path ranges leave no gap, every path of the key space lies in one of
    them. *)
Definition shardsCover (s : Storage) : Prop :=
  forall (X : gset Path) (p : Path), p ∈ X ->
    exists r, r ∈ shardRanges s X /\ inRange r p = true.

(** Modelled from the spec: the contract of [workerFunc]: a batch that
    succeeds only adds filesets to the store and returns, in task order, one
    new primitive per task holding the keys of the task's path range across
    the task's inputs. *)
Definition workerContract (c : DistributedCompactor) : Prop :=
  forall tasks st results st',
    workerFunc c tasks st = (Ok results, st') ->
    (exists ext, store st' = store st ++ ext) /\
    Forall2 (fun t r => forall X, contentOf (store st) (Inputs t) = Ok X ->
               exists p, primitiveIn (store st') r p /\
                         body p = restrictTo (PathRange_ t) X)
            tasks results.

(** A compaction that keeps the content: on success the store has only
    grown and the returned reference holds what the inputs held. *)
Definition preservesContent (compact : list ID -> M ID) : Prop :=
  forall ids st r st' X,
    compact ids st = (Ok r, st') ->
    contentOf (store st) ids = Ok X ->
    (exists ext, store st' = store st ++ ext) /\
    contentOf (store st') [r] = Ok X.

(** * Concrete stores

    A storage configuration and a few small stores on which the functions
    are run. *)

(** The size of a layer written from [layers]: here, the sum of their sizes. *)
Definition sumSizes (layers : list Primitive) : Z :=
  foldr (fun p total => int64_add (SizeBytes p) total) 0 layers.

(** Two shards, split at path 3. *)
Definition twoShards (X : gset Path) : list PathRange :=
  [ {| Lower := None; Upper := Some 3%N |};
    {| Lower := Some 3%N; Upper := None |} ].

Definition exampleStorage : Storage :=
  {| levelFactor := 10; writeSize := sumSizes; shardRanges := twoShards |}.

Definition leaf (size : Z) (paths : list Path) : Metadata :=
  Metadata_Primitive {| SizeBytes := size; body := list_to_set paths |}.

(** The scenario of the specification: layers of sizes 100, 50 and 4. *)
Definition scenarioState : State :=
  {| store := [leaf 100 [1; 2]%N; leaf 50 [2; 3]%N; leaf 4 [9]%N]; calls := [] |}.

(** Two layers that are already compacted for factor 10. *)
Definition compactedState : State :=
  {| store := [leaf 100 [1; 2]%N; leaf 1 [3]%N]; calls := [] |}.

(** The same two layers, and a composite (reference 2) over them. *)
Definition compositeState : State :=
  {| store := [leaf 100 [1; 2]%N; leaf 1 [3]%N;
               Metadata_Composite {| Layers := [Some 0%nat; Some 1%nat] |}];
     calls := [] |}.

(** A composite without layers (reference 0). *)
Definition hollowState : State :=
  {| store := [Metadata_Composite {| Layers := [] |}]; calls := [] |}.

(** Five layers. *)
Definition fiveState : State :=
  {| store := [leaf 5 [1]%N; leaf 4 [2]%N; leaf 3 [3]%N; leaf 2 [4]%N; leaf 1 [5]%N];
     calls := [] |}.

(** A fan-in of [maxFanIn] with the in-process worker. *)
Definition localCompactor (maxFanIn : Z) : DistributedCompactor :=
  NewDistributedCompactor exampleStorage maxFanIn (localWorker exampleStorage).

(** A worker that loses the last result of its batch. *)
Definition lossyWorker (tasks : list CompactionTask) : M (list ID) :=
  (let* results := localWorker exampleStorage tasks in
   ret (removelast results))%go.

Definition lossyCompactor : DistributedCompactor :=
  NewDistributedCompactor exampleStorage 2 lossyWorker.

(** Two layers whose product with the factor 10 leaves the [int64] range:
    sizes 5 and 2^62. *)
Definition overflowState : State :=
  {| store := [leaf 5 [1]%N; leaf (2 ^ 62) [2]%N]; calls := [] |}.

(** The same two layers, and a composite (reference 2) over them. *)
Definition overflowCompositeState : State :=
  {| store := [leaf 5 [1]%N; leaf (2 ^ 62) [2]%N;
               Metadata_Composite {| Layers := [Some 0%nat; Some 1%nat] |}];
     calls := [] |}.

(** Layers of sizes 1000, 5 and 4: for factor 10 the last two must be
    merged, and the merged layer is compacted with the first. *)
Definition mergeState : State :=
  {| store := [leaf 1000 [1]%N; leaf 5 [2]%N; leaf 4 [3]%N]; calls := [] |}.

(** * Further vocabulary *)

Definition isMergeCall (c : Call) : bool :=
  match c with CallMerge _ => true | _ => false end.

(** A call the distributed compactor may make with a fan-in of [maxFanIn]:
    a [Shard] over at most [maxFanIn] references, or a [Concat]. *)
Definition respectsFanIn (maxFanIn : Z) (c : Call) : bool :=
  match c with
  | CallShard ids => len ids <=? maxFanIn
  | CallConcat _ => true
  | _ => false
  end.

(** The call returned: with a value or with an error, neither with a panic
    nor by running out of budget. *)
Definition returnsNormally {A : Type} (r : Result A) : Prop :=
  match r with
  | Ok _ | Err _ => True
  | Panic _ | OutOfFuel => False
  end.

(** A worker that returns normally on acyclic stores and leaves them
    acyclic. *)
Definition workerSound (c : DistributedCompactor) : Prop :=
  forall tasks st, wfStore (store st) ->
    returnsNormally (fst (workerFunc c tasks st)) /\
    wfStore (store (snd (workerFunc c tasks st))).

(** A worker that makes no call to the storage capabilities recorded in
    [calls]. *)
Definition workerSilent (c : DistributedCompactor) : Prop :=
  forall tasks st, calls (snd (workerFunc c tasks st)) = calls st.

(** [compact] applied to each group in turn, left to right, stopping at the
    first group that does not return a reference. *)
Fixpoint compactEach (compact : list ID -> M ID) (groups : list (list ID))
    : M (list ID) :=
  match groups with
  | [] => ret []
  | group :: rest =>
    (let* id := compact group in
     let* ids := compactEach compact rest in
     ret (id :: ids))%go
  end.

(** Layers of sizes 100, 10 and 9. *)
Definition cascadeState : State :=
  {| store := [leaf 100 [1]%N; leaf 10 [2]%N; leaf 9 [3]%N]; calls := [] |}.

(** What a successful [Storage.Compact] on the flattened input [flat], with
    layers [layers], leaves behind: the result [r] is the newest fileset, a
    composite over the first [k] input references followed by [fresh]. *)
Definition compactOutcome (s : Storage) (st : State) (flat : list ID)
    (layers : list Primitive) (r : ID) (st' : State) : Prop :=
  exists (k : nat) (fresh : list ID) (merges : list Call)
         (ext : list Metadata) (layers' : list Primitive),
    ((k = length flat /\ fresh = [] /\ merges = []) \/
     ((k + 2 <= length flat)%nat /\ merges <> [] /\
      exists new, fresh = [new] /\ (length (store st) <= new)%nat)) /\
    store st' = store st ++ ext /\
    S r = length (store st') /\
    store st' !! r =
      Some (Metadata_Composite {| Layers := Some <$> (take k flat ++ fresh) |}) /\
    calls st' = calls st ++ merges ++ [CallCompose (take k flat ++ fresh)] /\
    Forall (fun c => isMergeCall c = true) merges /\
    (length merges + 1 <= max 1 (length flat))%nat /\
    primitivesOf (store st') (take k flat ++ fresh) = Ok layers' /\
    take k layers' = take k layers /\
    isCompacted (levelFactor s) layers' = true.

(** A call that returned normally and left an acyclic store. *)
Definition returnsSound {A : Type} (x : Result A * State) : Prop :=
  returnsNormally (fst x) /\ wfStore (store (snd x)).

(** The calls recorded on the way from [st] to the outcome [x] all respect
    the fan-in [maxFanIn]. *)
Definition callsWithin {A : Type} (maxFanIn : Z) (st : State)
    (x : Result A * State) : Prop :=
  exists new, calls (snd x) = calls st ++ new /\
    Forall (fun c => respectsFanIn maxFanIn c = true) new.




(** * Properties *)

(** ** Machine arithmetic *)

Lemma wrap64_small z : int64_min <= z <= int64_max -> wrap64 z = z.
Proof.
  unfold wrap64, int64_min, int64_max. intros H.
  rewrite Z.mod_small; lia.
Qed.

(** When the product fits in an [int64], the compacted relationship of the
    code is the inequality over the integers. *)
Lemma pairOK_exact factor layers j a b :
  layers !! j = Some a -> layers !! (j + 1)%nat = Some b ->
  in_int64 (SizeBytes b * factor) ->
  pairOK factor layers j <-> SizeBytes a >= SizeBytes b * factor.
Proof.
  intros Ha Hb Hfit. unfold pairOK, int64_mul.
  split.
  - intros H. specialize (H a b Ha Hb). by rewrite wrap64_small in H.
  - intros H a' b' Ha' Hb'. rewrite Ha in Ha'. rewrite Hb in Hb'.
    injection Ha' as <-. injection Hb' as <-. by rewrite wrap64_small.
Qed.

(** ** The compaction predicate *)


Lemma indexOfCompacted_loop_spec factor inputs k : forall i,
  (i + k = length inputs - 1)%nat ->
  let r := indexOfCompacted_loop factor inputs (length inputs) i k in
  (r = length inputs /\
   forall j, (i <= j)%nat -> pairOK factor inputs j) \/
  ((i <= r)%nat /\ (r + 1 < length inputs)%nat /\
   ~ pairOK factor inputs r /\
   forall j, (i <= j < r)%nat -> pairOK factor inputs j).
Proof.
  induction k as [|k IH]; intros i Hik; simpl.
  - left. split; [reflexivity|].
    intros j Hj a b Ha Hb. apply lookup_lt_Some in Hb. lia.
  - destruct (lookup_lt_is_Some_2 inputs i) as [a Ha]; [lia|].
    destruct (lookup_lt_is_Some_2 inputs (i + 1)) as [b Hb]; [lia|].
    rewrite Ha, Hb.
    destruct (Z.ltb_spec (SizeBytes a) (int64_mul (SizeBytes b) factor)) as [Hlt|Hge].
    + right. repeat split; try lia.
      intros Hok. specialize (Hok a b Ha Hb). lia.
    + destruct (IH (S i)) as [[Hr Hall]|(Hle & Hlt & Hbad & Hall)]; [lia|..].
      * left. split; [exact Hr|].
        intros j Hj. destruct (decide (j = i)) as [->|Hne].
        -- intros a' b' Ha' Hb'. rewrite Ha in Ha'. rewrite Hb in Hb'.
           injection Ha' as <-. injection Hb' as <-. lia.
        -- apply Hall. lia.
      * right. repeat split; try lia; [exact Hbad|].
        intros j Hj. destruct (decide (j = i)) as [->|Hne].
        -- intros a' b' Ha' Hb'. rewrite Ha in Ha'. rewrite Hb in Hb'.
           injection Ha' as <-. injection Hb' as <-. lia.
        -- apply Hall. lia.
Qed.

Lemma indexOfCompacted_spec factor inputs :
  let r := indexOfCompacted factor inputs in
  (r = length inputs /\ forall j, pairOK factor inputs j) \/
  ((r + 1 < length inputs)%nat /\ ~ pairOK factor inputs r /\
   compactedThrough factor inputs r).
Proof.
  unfold indexOfCompacted.
  destruct (indexOfCompacted_loop_spec factor inputs (length inputs - 1) 0%nat)
    as [[Hr Hall]|(_ & Hlt & Hbad & Hall)]; [lia|..].
  - left. split; [exact Hr|]. intros j. apply Hall. lia.
  - right. repeat split; [exact Hlt|exact Hbad|].
    intros j Hj. apply Hall. lia.
Qed.

Lemma indexOfCompacted_le factor inputs :
  (indexOfCompacted factor inputs <= length inputs)%nat.
Proof.
  destruct (indexOfCompacted_spec factor inputs) as [[-> _]|(H & _)]; lia.
Qed.

(** When the index stops short of the length, at least two layers are left
    from the index on. *)
Lemma indexOfCompacted_short factor inputs :
  indexOfCompacted factor inputs <> length inputs ->
  (indexOfCompacted factor inputs + 2 <= length inputs)%nat.
Proof.
  destruct (indexOfCompacted_spec factor inputs) as [[-> _]|(H & _)]; [congruence|lia].
Qed.

Lemma isCompacted_pairs factor layers :
  isCompacted factor layers = true <-> forall j, pairOK factor layers j.
Proof.
  unfold isCompacted. rewrite bool_decide_eq_true.
  destruct (indexOfCompacted_spec factor layers) as [[Hr Hall]|(Hlt & Hbad & _)].
  - tauto.
  - split; [lia|]. intros Hall. destruct Hbad. apply Hall.
Qed.

(** The index in the arithmetic of the code: [indexOfCompacted factor
    layers] is the largest index through which [layers] is compacted for the
    [int64] product; when the first violating pair is [(j, j+1)] it is [j];
    for fewer than two layers it is the length; for factor 10 and sizes
    [100, 50, 4] it is 0; and it equals the length exactly when
    [isCompacted] holds. *)
Lemma indexOfCompacted_wrapped (factor : Z) (layers : list Primitive) :
  let r := indexOfCompacted factor layers in
  ((r <= length layers)%nat /\ compactedThrough factor layers r /\
   forall i, (i <= length layers)%nat -> compactedThrough factor layers i -> (i <= r)%nat) /\
  (forall j a b,
     layers !! j = Some a -> layers !! (j + 1)%nat = Some b ->
     SizeBytes a < int64_mul (SizeBytes b) factor ->
     compactedThrough factor layers j ->
     r = j /\ r <> (j + 1)%nat) /\
  ((length layers <= 1)%nat -> r = length layers) /\
  (forall b1 b2 b3,
     indexOfCompacted 10 [mkPrimitive 100 b1; mkPrimitive 50 b2; mkPrimitive 4 b3] = 0%nat) /\
  (r = length layers <-> isCompacted factor layers = true).
Proof.
  intros r. subst r.
  pose proof (indexOfCompacted_spec factor layers) as Hspec. simpl in Hspec.
  split; [|split; [|split; [|split]]].
  - split; [apply indexOfCompacted_le|split].
    + destruct Hspec as [[_ Hall]|(_ & _ & Hthrough)]; [|exact Hthrough].
      intros j _. apply Hall.
    + intros i Hi Hthrough.
      destruct Hspec as [[-> _]|(Hlt & Hbad & _)]; [exact Hi|].
      destruct (decide (i <= indexOfCompacted factor layers)%nat) as [Hle|Hgt]; [exact Hle|].
      destruct Hbad. apply Hthrough. lia.
  - intros j a b Ha Hb Hviol Hbefore.
    assert (indexOfCompacted factor layers = j) as Heq; [|split; [exact Heq|lia]].
    destruct Hspec as [[_ Hall]|(Hlt & Hbad & Hthrough)].
    + specialize (Hall j a b Ha Hb). lia.
    + destruct (Nat.lt_trichotomy (indexOfCompacted factor layers) j) as [Hlt'|[Heq|Hgt]].
      * destruct Hbad. apply Hbefore. exact Hlt'.
      * exact Heq.
      * specialize (Hthrough j Hgt a b Ha Hb). lia.
  - intros Hlen. destruct Hspec as [[Hr _]|(Hlt & _)]; [exact Hr|lia].
  - intros b1 b2 b3. reflexivity.
  - unfold isCompacted. symmetry. apply bool_decide_eq_true.
Qed.

Lemma pairOK_fits factor layers j :
  productsFit factor layers -> pairOK factor layers j <-> pairOKZ factor layers j.
Proof.
  intros Hfit. unfold pairOK, pairOKZ, int64_mul. split; intros H a b Ha Hb.
  - specialize (H a b Ha Hb).
    pose proof (proj1 (Forall_lookup _ _) Hfit _ _ Hb) as Hb'. simpl in Hb'.
    by rewrite wrap64_small in H.
  - pose proof (proj1 (Forall_lookup _ _) Hfit _ _ Hb) as Hb'. simpl in Hb'.
    rewrite wrap64_small by exact Hb'. by apply H.
Qed.

Lemma compactedThrough_fits factor layers i :
  productsFit factor layers ->
  compactedThrough factor layers i <-> compactedThroughZ factor layers i.
Proof.
  intros Hfit. unfold compactedThrough, compactedThroughZ.
  split; intros H j Hj; apply (pairOK_fits _ _ _ Hfit); by apply H.
Qed.

(** C4 (as the code has it). [indexOfCompacted factor layers] is the largest
    index through which [layers] is compacted, where a pair satisfies the
    relationship when [left >= right * factor] with the product computed in
    [int64], as on line 66; when the first violating pair is [(j, j+1)] it
    is [j], not [j+1]; for fewer than two layers it is the length; for
    factor 10 and sizes [100, 50, 4] it is 0; and it equals the length
    exactly when [isCompacted] holds.  Whenever no product [size * factor]
    leaves the [int64] range, the same holds with the inequality over the
    integers. *)
Theorem indexOfCompacted_correct (factor : Z) (layers : list Primitive) :
  let r := indexOfCompacted factor layers in
  (((r <= length layers)%nat /\ compactedThrough factor layers r /\
    forall i, (i <= length layers)%nat -> compactedThrough factor layers i -> (i <= r)%nat) /\
   (forall j a b,
      layers !! j = Some a -> layers !! (j + 1)%nat = Some b ->
      SizeBytes a < int64_mul (SizeBytes b) factor ->
      compactedThrough factor layers j ->
      r = j /\ r <> (j + 1)%nat) /\
   ((length layers <= 1)%nat -> r = length layers) /\
   (forall b1 b2 b3,
      indexOfCompacted 10 [mkPrimitive 100 b1; mkPrimitive 50 b2; mkPrimitive 4 b3] = 0%nat) /\
   (r = length layers <-> isCompacted factor layers = true)) /\
  (productsFit factor layers ->
   ((r <= length layers)%nat /\ compactedThroughZ factor layers r /\
    forall i, (i <= length layers)%nat -> compactedThroughZ factor layers i -> (i <= r)%nat) /\
   (forall j a b,
      layers !! j = Some a -> layers !! (j + 1)%nat = Some b ->
      SizeBytes a < SizeBytes b * factor ->
      compactedThroughZ factor layers j ->
      r = j /\ r <> (j + 1)%nat)).
Proof.
  intros r. pose proof (indexOfCompacted_wrapped factor layers) as Hwrapped.
  cbv zeta in Hwrapped. fold r in Hwrapped.
  split; [exact Hwrapped|]. intros Hfit.
  destruct Hwrapped as ((Hle & Hthrough & Hmax) & Hfirst & _).
  split.
  - split; [exact Hle|]. split.
    + by apply (compactedThrough_fits _ _ _ Hfit).
    + intros i Hi Hz. apply Hmax; [exact Hi|].
      by apply (compactedThrough_fits _ _ _ Hfit).
  - intros j a b Ha Hb Hlt Hz. apply (Hfirst j a b Ha Hb).
    + pose proof (proj1 (Forall_lookup _ _) Hfit _ _ Hb) as Hb'. simpl in Hb'.
      unfold int64_mul. by rewrite wrap64_small.
    + by apply (compactedThrough_fits _ _ _ Hfit).
Qed.

(** ** Reading the store *)

Lemma rbind_Ok {A B : Type} (r : Result A) (k : A -> Result B) (b : B) :
  rbind r k = Ok b -> exists a, r = Ok a /\ k a = Ok b.
Proof. destruct r; simpl; intros H; try discriminate. eauto. Qed.

Lemma getPrimitiveBatch_loop_eq ids : forall layers st,
  getPrimitiveBatch_loop ids layers st =
  ((let? more := primitivesOf (store st) ids in Ok (layers ++ more)), st).
Proof.
  induction ids as [|id rest IH]; intros layers st; simpl.
  - unfold ret. by rewrite app_nil_r.
  - unfold bind, getPrimitive, reading.
    destruct (primitiveAt (store st) id) as [prim| | |]; simpl; try reflexivity.
    rewrite IH.
    destruct (primitivesOf (store st) rest); simpl; try reflexivity.
    by rewrite <- app_assoc.
Qed.

Lemma getPrimitiveBatch_eq ids st :
  getPrimitiveBatch ids st = (primitivesOf (store st) ids, st).
Proof.
  unfold getPrimitiveBatch. rewrite getPrimitiveBatch_loop_eq.
  by destruct (primitivesOf (store st) ids).
Qed.

Lemma primitiveAt_Ok st id p :
  primitiveAt st id = Ok p <-> primitiveIn st id p.
Proof.
  unfold primitiveAt, primitiveIn, Get.
  destruct (st !! id) as [[q|c|]|]; simpl; split; intros H; try discriminate;
    congruence.
Qed.

Lemma primitivesOf_Ok st ids : forall layers,
  primitivesOf st ids = Ok layers <-> Forall2 (primitiveIn st) ids layers.
Proof.
  induction ids as [|id rest IH]; intros layers; simpl.
  - split; intros H.
    + injection H as <-. constructor.
    + by inversion H.
  - split; intros H.
    + apply rbind_Ok in H as (p & Hp & H).
      apply rbind_Ok in H as (ls & Hls & H). injection H as <-.
      constructor; [by apply primitiveAt_Ok | by apply IH].
    + inversion H as [|? p ? ls Hp Hls]; subst.
      apply primitiveAt_Ok in Hp. apply IH in Hls.
      by rewrite Hp, Hls.
Qed.

Lemma primitiveIn_app st ext id p :
  primitiveIn st id p -> primitiveIn (st ++ ext) id p.
Proof. unfold primitiveIn. intros H. by apply lookup_app_l_Some. Qed.

Lemma primitivesOf_app st ext ids layers :
  primitivesOf st ids = Ok layers -> primitivesOf (st ++ ext) ids = Ok layers.
Proof.
  rewrite !primitivesOf_Ok. intros H.
  eapply Forall2_impl; [exact H|]. intros id p. apply primitiveIn_app.
Qed.

Lemma primitivesOf_length st ids layers :
  primitivesOf st ids = Ok layers -> length layers = length ids.
Proof. rewrite primitivesOf_Ok. intros H. symmetry. eapply Forall2_length, H. Qed.

(** References to primitives flatten to themselves. *)
Lemma flattenEach_primitives sub st ids layers :
  Forall2 (primitiveIn st) ids layers -> flattenEach sub st ids = Ok ids.
Proof.
  induction 1 as [|id p rest ls Hp _ IH]; simpl; [reflexivity|].
  unfold Get. rewrite Hp. simpl. by rewrite IH.
Qed.

Lemma flattenStore_primitives st ids layers :
  primitivesOf st ids = Ok layers -> flattenStore st ids = Ok ids.
Proof.
  rewrite primitivesOf_Ok. intros H. unfold flattenStore. simpl.
  eapply flattenEach_primitives, H.
Qed.

Lemma layersOf_primitives st ids layers :
  primitivesOf st ids = Ok layers -> layersOf st ids = Ok layers.
Proof.
  intros H. unfold layersOf. by rewrite (flattenStore_primitives _ _ _ H).
Qed.

Lemma decodeLayers_Some ids : decodeLayers (Some <$> ids) = Ok ids.
Proof.
  induction ids as [|id rest IH]; [reflexivity|].
  change (decodeLayers (Some <$> id :: rest))
    with (let? ids := decodeLayers (Some <$> rest) in Ok (id :: ids)).
  by rewrite IH.
Qed.

(** A composite over primitives flattens to its pointer list. *)
Lemma layersOf_composite st ids layers r :
  primitivesOf st ids = Ok layers ->
  st !! r = Some (Metadata_Composite {| Layers := Some <$> ids |}) ->
  flattenStore st [r] = Ok ids /\ layersOf st [r] = Ok layers.
Proof.
  intros Hprims Hr.
  assert (flattenStore st [r] = Ok ids) as Hflat.
  { unfold flattenStore. simpl. unfold Get. rewrite Hr. simpl.
    unfold PointsTo. simpl. rewrite decodeLayers_Some. simpl.
    apply lookup_lt_Some in Hr.
    destruct (length st) as [|n] eqn:Hn; [lia|]. simpl.
    apply primitivesOf_Ok in Hprims.
    rewrite (flattenEach_primitives _ _ _ _ Hprims). simpl.
    by rewrite app_nil_r. }
  split; [exact Hflat|]. unfold layersOf. by rewrite Hflat.
Qed.

(** ** [Storage.IsCompacted] *)

Lemma IsCompacted_composite s id st c ptrs :
  store st !! id = Some (Metadata_Composite c) ->
  PointsTo c = Ok ptrs ->
  Storage_IsCompacted s id st =
  ((let? layers := layersOf (store st) ptrs in
    Ok (isCompacted (levelFactor s) layers)), st).
Proof.
  intros Hid Hptrs. unfold Storage_IsCompacted, bind, reading, Get, lift, Flatten.
  rewrite Hid, Hptrs. simpl. unfold layersOf.
  destruct (flattenStore (store st) ptrs) as [flat| | |]; simpl; try reflexivity.
  rewrite getPrimitiveBatch_eq.
  by destruct (primitivesOf (store st) flat).
Qed.

(** The three cases of [IsCompacted], in the arithmetic of the code. *)
Lemma IsCompacted_cases (s : Storage) (id : ID) (st : State) :
  (forall p, store st !! id = Some (Metadata_Primitive p) ->
     Storage_IsCompacted s id st = (Ok true, st)) /\
  (forall c ptrs layers,
     store st !! id = Some (Metadata_Composite c) ->
     PointsTo c = Ok ptrs ->
     layersOf (store st) ptrs = Ok layers ->
     exists b, Storage_IsCompacted s id st = (Ok b, st) /\
       (b = true <-> forall j, pairOK (levelFactor s) layers j)) /\
  (store st !! id = Some Metadata_nil ->
     Storage_IsCompacted s id st =
     (Err (Errorf "IsCompacted is not defined for empty filesets"), st)).
Proof.
  split; [|split].
  - intros p Hid. unfold Storage_IsCompacted, bind, reading, Get.
    by rewrite Hid.
  - intros c ptrs layers Hid Hptrs Hlayers.
    exists (isCompacted (levelFactor s) layers).
    rewrite (IsCompacted_composite _ _ _ _ _ Hid Hptrs), Hlayers.
    split; [reflexivity|apply isCompacted_pairs].
  - intros Hid. unfold Storage_IsCompacted, bind, reading, Get.
    by rewrite Hid.
Qed.

(** C5 (as the code has it). [IsCompacted] answers true for a primitive; for
    a composite it answers whether every consecutive pair of the flattened
    primitive layers satisfies [left >= right * levelFactor] with the
    product computed in [int64], which is the inequality over the integers
    whenever no product [size * levelFactor] leaves the [int64] range; for
    metadata with no variant it returns an error. *)
Theorem IsCompacted_correct (s : Storage) (id : ID) (st : State) :
  (forall p, store st !! id = Some (Metadata_Primitive p) ->
     Storage_IsCompacted s id st = (Ok true, st)) /\
  (forall c ptrs layers,
     store st !! id = Some (Metadata_Composite c) ->
     PointsTo c = Ok ptrs ->
     layersOf (store st) ptrs = Ok layers ->
     exists b, Storage_IsCompacted s id st = (Ok b, st) /\
       (b = true <-> forall j, pairOK (levelFactor s) layers j) /\
       (productsFit (levelFactor s) layers ->
        (b = true <-> forall j, pairOKZ (levelFactor s) layers j))) /\
  (store st !! id = Some Metadata_nil ->
     Storage_IsCompacted s id st =
     (Err (Errorf "IsCompacted is not defined for empty filesets"), st)).
Proof.
  destruct (IsCompacted_cases s id st) as (Hprim & Hcomp & Hnil).
  split; [exact Hprim|]. split; [|exact Hnil].
  intros c ptrs layers Hid Hptrs Hlayers.
  destruct (Hcomp c ptrs layers Hid Hptrs Hlayers) as (b & Hrun & Hb).
  exists b. split; [exact Hrun|]. split; [exact Hb|].
  intros Hfit. rewrite Hb.
  split; intros H j; apply (pairOK_fits _ _ _ Hfit); apply H.
Qed.

(** C10. [IsCompacted] on a composite whose pointer list flattens to no
    primitive layer at all returns true, and no error. *)
Theorem IsCompacted_composite_without_layers
    (s : Storage) (id : ID) (st : State) (c : Composite) (ptrs : list ID) :
  store st !! id = Some (Metadata_Composite c) ->
  PointsTo c = Ok ptrs ->
  flattenStore (store st) ptrs = Ok [] ->
  indexOfCompacted (levelFactor s) [] = 0%nat /\
  Storage_IsCompacted s id st = (Ok true, st).
Proof.
  intros Hid Hptrs Hflat. split; [reflexivity|].
  rewrite (IsCompacted_composite _ _ _ _ _ Hid Hptrs).
  unfold layersOf. by rewrite Hflat.
Qed.

(** ** [Storage.Compact] *)

Lemma Compose_eq s ids st :
  Compose s ids st =
  (Ok (length (store st)),
   {| store := store st ++ [Metadata_Composite {| Layers := Some <$> ids |}];
      calls := calls st ++ [CallCompose ids] |}).
Proof. reflexivity. Qed.

Lemma Merge_eq s ids st :
  Merge s ids st =
  match layersOf (store st) ids with
  | Ok layers => (Ok (length (store st)), written s (CallMerge ids) layers st)
  | Err e => (Err e, {| store := store st; calls := calls st ++ [CallMerge ids] |})
  | Panic msg => (Panic msg, {| store := store st; calls := calls st ++ [CallMerge ids] |})
  | OutOfFuel => (OutOfFuel, {| store := store st; calls := calls st ++ [CallMerge ids] |})
  end.
Proof.
  unfold Merge, writeLayer, bind, called, reading, create. simpl.
  by destruct (layersOf (store st) ids).
Qed.

Lemma Concat_eq s ids st :
  Concat s ids st =
  match layersOf (store st) ids with
  | Ok layers => (Ok (length (store st)), written s (CallConcat ids) layers st)
  | Err e => (Err e, {| store := store st; calls := calls st ++ [CallConcat ids] |})
  | Panic msg => (Panic msg, {| store := store st; calls := calls st ++ [CallConcat ids] |})
  | OutOfFuel => (OutOfFuel, {| store := store st; calls := calls st ++ [CallConcat ids] |})
  end.
Proof.
  unfold Concat, writeLayer, bind, called, reading, create. simpl.
  by destruct (layersOf (store st) ids).
Qed.

(** One call of [Compact] once the input has been flattened and read. *)
Lemma Compact_step fuel s ids st flat layers :
  flattenStore (store st) ids = Ok flat ->
  primitivesOf (store st) flat = Ok layers ->
  Storage_Compact (S fuel) s ids st =
  let i := indexOfCompacted (levelFactor s) layers in
  if decide (i = length layers) then Compose s flat st
  else
    (let* merged := Merge s (drop i flat) in
     Storage_Compact fuel s ([] ++ take i flat ++ [merged]))%go st.
Proof.
  intros Hflat Hprims. simpl. unfold bind at 1. unfold Flatten, reading.
  rewrite Hflat. unfold bind at 1. rewrite getPrimitiveBatch_eq, Hprims.
  by destruct (decide (indexOfCompacted (levelFactor s) layers = length layers)).
Qed.

(** The merge branch: the suffix from the index on is written as one new
    primitive, and the list handed to the recursive call is a list of
    primitives of the new store. *)
Lemma Compact_merge_branch s st flat layers (i : nat) :
  primitivesOf (store st) flat = Ok layers ->
  let st1 := written s (CallMerge (drop i flat)) (drop i layers) st in
  let ids2 := [] ++ take i flat ++ [length (store st)] in
  Merge s (drop i flat) st = (Ok (length (store st)), st1) /\
  primitivesOf (store st1) ids2 =
    Ok (take i layers ++
        [{| SizeBytes := writeSize s (drop i layers); body := bodies (drop i layers) |}]).
Proof.
  intros Hprims st1 ids2. split.
  - rewrite Merge_eq.
    rewrite (layersOf_primitives _ _ (drop i layers)); [reflexivity|].
    apply primitivesOf_Ok, Forall2_drop. by apply primitivesOf_Ok.
  - subst st1 ids2. simpl. apply primitivesOf_Ok, Forall2_app.
    + apply Forall2_take. apply primitivesOf_Ok in Hprims.
      eapply Forall2_impl; [exact Hprims|]. intros id p. apply primitiveIn_app.
    + constructor; [|constructor]. unfold primitiveIn.
      by rewrite list_lookup_middle.
Qed.

(** The layers of what a successful [Storage.Compact] returns are compacted
    in the arithmetic of the code. *)
Lemma Compact_result_compacted (fuel : nat) (s : Storage) (ids : list ID)
    (st st' : State) (r : ID) :
  Storage_Compact fuel s ids st = (Ok r, st') ->
  exists layers, layersOf (store st') [r] = Ok layers /\
    forall j a b, layers !! j = Some a -> layers !! (j + 1)%nat = Some b ->
      SizeBytes a >= int64_mul (SizeBytes b) (levelFactor s).
Proof.
  revert ids st. induction fuel as [|fuel IH]; intros ids st Hrun.
  - discriminate.
  - destruct (flattenStore (store st) ids) as [flat| | |] eqn:Hflat;
      try (simpl in Hrun; unfold bind, Flatten, reading in Hrun;
           rewrite Hflat in Hrun; discriminate).
    destruct (primitivesOf (store st) flat) as [layers| | |] eqn:Hprims;
      try (simpl in Hrun; unfold bind at 1 in Hrun; unfold Flatten, reading in Hrun;
           rewrite Hflat in Hrun; unfold bind at 1 in Hrun;
           rewrite getPrimitiveBatch_eq, Hprims in Hrun; discriminate).
    rewrite (Compact_step _ _ _ _ _ _ Hflat Hprims) in Hrun. simpl in Hrun.
    destruct (decide (indexOfCompacted (levelFactor s) layers = length layers))
      as [Hdone|Hmore].
    + rewrite Compose_eq in Hrun. injection Hrun as <- <-. simpl.
      exists layers. split.
      * eapply layersOf_composite.
        -- by apply primitivesOf_app.
        -- apply list_lookup_middle. reflexivity.
      * apply isCompacted_pairs. unfold isCompacted.
        by apply bool_decide_eq_true.
    + unfold bind in Hrun.
      destruct (Compact_merge_branch s st flat layers
                  (indexOfCompacted (levelFactor s) layers) Hprims) as [Hmerge _].
      rewrite Hmerge in Hrun. eapply IH, Hrun.
Qed.

(** C1 (as the code has it). Whenever [Storage.Compact] succeeds, the
    flattened layers of the fileset it returns satisfy
    [size[j] >= size[j+1] * levelFactor] for every adjacent pair, with the
    product computed in [int64] as on line 66; the inequality holds over the
    integers for every pair whose product is within the [int64] range. *)
Theorem Compact_restores_invariant (fuel : nat) (s : Storage) (ids : list ID)
    (st st' : State) (r : ID) :
  Storage_Compact fuel s ids st = (Ok r, st') ->
  exists layers, layersOf (store st') [r] = Ok layers /\
    (forall j a b, layers !! j = Some a -> layers !! (j + 1)%nat = Some b ->
       SizeBytes a >= int64_mul (SizeBytes b) (levelFactor s)) /\
    (forall j a b, layers !! j = Some a -> layers !! (j + 1)%nat = Some b ->
       in_int64 (SizeBytes b * levelFactor s) ->
       SizeBytes a >= SizeBytes b * levelFactor s).
Proof.
  intros Hrun.
  destruct (Compact_result_compacted _ _ _ _ _ _ Hrun) as (layers & Hlayers & Hpairs).
  exists layers. split; [exact Hlayers|]. split; [exact Hpairs|].
  intros j a b Ha Hb Hfit. specialize (Hpairs j a b Ha Hb).
  unfold int64_mul in Hpairs. by rewrite wrap64_small in Hpairs.
Qed.

Lemma decodeLayers_not_OutOfFuel ls : decodeLayers ls <> OutOfFuel.
Proof.
  induction ls as [|[x|] ls IH]; simpl; try done.
  by destruct (decodeLayers ls).
Qed.

Lemma flattenEach_total sub st ids :
  Forall (fun id => forall c ptrs, st !! id = Some (Metadata_Composite c) ->
            PointsTo c = Ok ptrs -> sub ptrs <> OutOfFuel) ids ->
  flattenEach sub st ids <> OutOfFuel.
Proof.
  induction 1 as [|id rest Hid _ IH]; simpl; [done|].
  unfold Get. destruct (st !! id) as [[p|c|]|] eqn:Hget; simpl; try done.
  - by destruct (flattenEach sub st rest).
  - pose proof (decodeLayers_not_OutOfFuel (Layers c)) as Hdec.
    unfold PointsTo in *.
    destruct (decodeLayers (Layers c)) as [ptrs| | |] eqn:Hptrs; simpl; try done.
    specialize (Hid c ptrs eq_refl Hptrs).
    destruct (sub ptrs); simpl; try done.
    by destruct (flattenEach sub st rest).
Qed.

Lemma flattenDepth_total st : wfStore st -> forall d ids,
  Forall (fun id => (id < length st)%nat -> (id < d)%nat) ids ->
  flattenDepth (S d) st ids <> OutOfFuel.
Proof.
  intros Hwf. induction d as [|d IHd]; intros ids Hids.
  - change (flattenEach (flattenDepth 0 st) st ids <> OutOfFuel).
    apply flattenEach_total. eapply Forall_impl; [exact Hids|].
    simpl. intros id Hid c ptrs Hget Hptrs.
    apply lookup_lt_Some in Hget. specialize (Hid Hget). lia.
  - change (flattenEach (flattenDepth (S d) st) st ids <> OutOfFuel).
    apply flattenEach_total. eapply Forall_impl; [exact Hids|].
    simpl. intros id Hid c ptrs Hget Hptrs.
    pose proof (lookup_lt_Some _ _ _ Hget) as Hlt. specialize (Hid Hlt).
    apply IHd.
    eapply Forall_impl; [exact (Hwf id c ptrs Hget Hptrs)|].
    simpl. intros p Hp _. lia.
Qed.

Lemma flattenStore_total st ids : wfStore st -> flattenStore st ids <> OutOfFuel.
Proof.
  intros Hwf. apply flattenDepth_total; [exact Hwf|].
  apply Forall_forall. intros id _ Hlt. exact Hlt.
Qed.

(** On a list of primitives and with more fuel than the list is long,
    [Compact] returns a reference. *)
Lemma Compact_flat_returns s fuel : forall flat layers st,
  primitivesOf (store st) flat = Ok layers ->
  (length flat < fuel)%nat ->
  exists r st', Storage_Compact fuel s flat st = (Ok r, st').
Proof.
  induction fuel as [|fuel IH]; intros flat layers st Hprims Hfuel; [lia|].
  rewrite (Compact_step _ _ _ _ flat layers);
    [|by eapply flattenStore_primitives|exact Hprims].
  simpl.
  destruct (decide (indexOfCompacted (levelFactor s) layers = length layers))
    as [Hdone|Hmore].
  - rewrite Compose_eq. eauto.
  - destruct (Compact_merge_branch s st flat layers
                (indexOfCompacted (levelFactor s) layers) Hprims) as [Hmerge Hids2].
    unfold bind. rewrite Hmerge.
    eapply IH; [exact Hids2|].
    pose proof (indexOfCompacted_short _ _ Hmore) as Hshort.
    pose proof (primitivesOf_length _ _ _ Hprims) as Hlen.
    simpl. rewrite length_app, length_take. simpl. lia.
Qed.

Lemma Compact_unfold fuel s ids :
  Storage_Compact (S fuel) s ids =
  (let* ids := Flatten ids in
   let* inputs := getPrimitiveBatch ids in
   let i := indexOfCompacted (levelFactor s) inputs in
   if decide (i = length inputs) then Compose s ids
   else
     let* merged := Merge s (drop i ids) in
     let ids2 := [] ++ take i ids ++ [merged] in
     Storage_Compact fuel s ids2)%go.
Proof. reflexivity. Qed.

(** More fuel does not change a result. *)
Lemma Compact_fuel_mono s fuel : forall ids st r st',
  Storage_Compact fuel s ids st = (r, st') -> r <> OutOfFuel ->
  Storage_Compact (S fuel) s ids st = (r, st').
Proof.
  induction fuel as [|fuel IH]; intros ids st r st' Hrun Hr.
  - simpl in Hrun. unfold lift in Hrun. congruence.
  - rewrite Compact_unfold in Hrun. rewrite Compact_unfold.
    unfold bind in *.
    destruct (Flatten ids st) as [[flat| | |] st1]; try exact Hrun.
    destruct (getPrimitiveBatch flat st1) as [[layers| | |] st2]; try exact Hrun.
    simpl in *.
    destruct (decide (indexOfCompacted (levelFactor s) layers = length layers));
      [exact Hrun|].
    destruct (Merge s (drop (indexOfCompacted (levelFactor s) layers) flat) st2)
      as [[merged| | |] st3]; try exact Hrun.
    by apply IH.
Qed.

Lemma Compact_fuel_le s fuel fuel' ids st r st' :
  Storage_Compact fuel s ids st = (r, st') -> r <> OutOfFuel ->
  (fuel <= fuel')%nat ->
  Storage_Compact fuel' s ids st = (r, st').
Proof.
  intros Hrun Hr Hle. induction Hle as [|n Hle IH]; [exact Hrun|].
  by apply Compact_fuel_mono.
Qed.

Lemma primitivesOf_not_OutOfFuel st ids : primitivesOf st ids <> OutOfFuel.
Proof.
  induction ids as [|id rest IH]; simpl; [done|].
  unfold primitiveAt, Get.
  destruct (st !! id) as [[p|c|]|]; simpl; try done.
  by destruct (primitivesOf st rest).
Qed.

(** C6. [Storage.Compact] terminates: whenever the initial [Flatten]
    returns, a large enough budget gives one result, the same for every
    larger budget.  In the merge branch the merged suffix has at least two
    elements and the list handed to the recursive call, which flattens to
    itself, is strictly shorter than the current flattened list. *)
Theorem Compact_terminates (s : Storage) (ids : list ID) (st : State) :
  flattenStore (store st) ids <> OutOfFuel ->
  (exists n r st', r <> OutOfFuel /\
     forall fuel, (n <= fuel)%nat -> Storage_Compact fuel s ids st = (r, st')) /\
  (forall fuel flat layers,
     flattenStore (store st) ids = Ok flat ->
     primitivesOf (store st) flat = Ok layers ->
     let i := indexOfCompacted (levelFactor s) layers in
     i <> length layers ->
     exists merged st1,
       Merge s (drop i flat) st = (Ok merged, st1) /\
       let ids2 := [] ++ take i flat ++ [merged] in
       Storage_Compact (S fuel) s ids st = Storage_Compact fuel s ids2 st1 /\
       flattenStore (store st1) ids2 = Ok ids2 /\
       (2 <= length (drop i flat))%nat /\
       (length ids2 + 1 <= length flat)%nat).
Proof.
  intros Hreturns. split.
  - destruct (flattenStore (store st) ids) as [flat|e|msg|] eqn:Hflat.
    + destruct (primitivesOf (store st) flat) as [layers|e|msg|] eqn:Hprims.
      * destruct (decide (indexOfCompacted (levelFactor s) layers = length layers))
          as [Hdone|Hmore].
        -- exists 1%nat, (Ok (length (store st))),
             {| store := store st ++ [Metadata_Composite {| Layers := Some <$> flat |}];
                calls := calls st ++ [CallCompose flat] |}.
           split; [done|]. intros [|fuel] Hfuel; [lia|].
           rewrite (Compact_step _ _ _ _ _ _ Hflat Hprims). simpl.
           destruct (decide (indexOfCompacted (levelFactor s) layers = length layers));
             [apply Compose_eq|done].
        -- destruct (Compact_merge_branch s st flat layers
                       (indexOfCompacted (levelFactor s) layers) Hprims)
             as [Hmerge Hids2].
           pose proof (indexOfCompacted_short _ _ Hmore) as Hshort.
           pose proof (primitivesOf_length _ _ _ Hprims) as Hlen.
           destruct (Compact_flat_returns s (length flat) _ _ _ Hids2)
             as (r & st' & Hrun).
           { simpl. rewrite length_app, length_take. simpl. lia. }
           exists (S (length flat)), (Ok r), st'. split; [done|].
           intros [|fuel] Hfuel; [lia|].
           rewrite (Compact_step _ _ _ _ _ _ Hflat Hprims). simpl.
           destruct (decide (indexOfCompacted (levelFactor s) layers = length layers));
             [done|].
           unfold bind. rewrite Hmerge.
           eapply Compact_fuel_le; [exact Hrun|done|lia].
      * exists 1%nat, (Err e), st. split; [done|]. intros [|fuel] Hfuel; [lia|].
        rewrite Compact_unfold. unfold bind at 1. unfold Flatten, reading.
        rewrite Hflat. unfold bind at 1. by rewrite getPrimitiveBatch_eq, Hprims.
      * exists 1%nat, (Panic msg), st. split; [done|]. intros [|fuel] Hfuel; [lia|].
        rewrite Compact_unfold. unfold bind at 1. unfold Flatten, reading.
        rewrite Hflat. unfold bind at 1. by rewrite getPrimitiveBatch_eq, Hprims.
      * by destruct (primitivesOf_not_OutOfFuel (store st) flat).
    + exists 1%nat, (Err e), st. split; [done|]. intros [|fuel] Hfuel; [lia|].
      rewrite Compact_unfold. unfold bind at 1. unfold Flatten, reading.
      by rewrite Hflat.
    + exists 1%nat, (Panic msg), st. split; [done|]. intros [|fuel] Hfuel; [lia|].
      rewrite Compact_unfold. unfold bind at 1. unfold Flatten, reading.
      by rewrite Hflat.
    + done.
  - intros fuel flat layers Hflat Hprims i Hmore. subst i.
    destruct (Compact_merge_branch s st flat layers
                (indexOfCompacted (levelFactor s) layers) Hprims) as [Hmerge Hids2].
    pose proof (indexOfCompacted_short _ _ Hmore) as Hshort.
    pose proof (primitivesOf_length _ _ _ Hprims) as Hlen.
    eexists _, _. split; [exact Hmerge|]. cbv zeta. split; [|split; [|split]].
    + rewrite (Compact_step _ _ _ _ _ _ Hflat Hprims). simpl.
      destruct (decide (indexOfCompacted (levelFactor s) layers = length layers));
        [done|].
      unfold bind. by rewrite Hmerge.
    + eapply flattenStore_primitives. exact Hids2.
    + rewrite length_drop. lia.
    + rewrite !length_app, length_take. simpl. lia.
Qed.

(** C2 (as the code has it). When the flattened input is already compacted,
    [Storage.Compact] calls [Compose] on the flattened list of primitive
    references: the parameter [ids] was reassigned by line 75. *)
Theorem Compact_composes_flattened (fuel : nat) (s : Storage) (ids flat : list ID)
    (layers : list Primitive) (st : State) :
  flattenStore (store st) ids = Ok flat ->
  primitivesOf (store st) flat = Ok layers ->
  indexOfCompacted (levelFactor s) layers = length layers ->
  Storage_Compact (S fuel) s ids st = Compose s flat st /\
  calls (snd (Storage_Compact (S fuel) s ids st)) = calls st ++ [CallCompose flat] /\
  store (snd (Storage_Compact (S fuel) s ids st)) =
    store st ++ [Metadata_Composite {| Layers := Some <$> flat |}].
Proof.
  intros Hflat Hprims Hdone.
  assert (Storage_Compact (S fuel) s ids st = Compose s flat st) as Heq.
  { rewrite (Compact_step _ _ _ _ _ _ Hflat Hprims). simpl.
    by destruct (decide (indexOfCompacted (levelFactor s) layers = length layers)). }
  rewrite Heq, Compose_eq. done.
Qed.

(** ** [shardedCompact] *)


Lemma Shard_eq {A : Type} s ids (visit : PathRange -> A -> Result A) acc st :
  Shard s ids visit acc st =
  let st1 := {| store := store st; calls := calls st ++ [CallShard ids] |} in
  match layersOf (store st) ids with
  | Ok layers => (visitRanges visit (shardRanges s (bodies layers)) acc, st1)
  | Err e => (Err e, st1)
  | Panic msg => (Panic msg, st1)
  | OutOfFuel => (OutOfFuel, st1)
  end.
Proof.
  unfold Shard, bind, called, reading, lift. simpl.
  by destruct (layersOf (store st) ids).
Qed.

Lemma concatCalls_snoc st c :
  concatCalls {| store := store st; calls := calls st ++ [c] |} =
  concatCalls st ++ (if isConcatCall c then [c] else []).
Proof.
  unfold concatCalls. simpl. rewrite filter_app. f_equal.
  by destruct c.
Qed.

Lemma Concat_is_recorded s ids st :
  concatCalls (snd (Concat s ids st)) = concatCalls st ++ [CallConcat ids].
Proof.
  rewrite Concat_eq.
  destruct (layersOf (store st) ids); simpl;
    unfold concatCalls; simpl; by rewrite filter_app.
Qed.

(** C7. When the worker returns a result list whose length differs from the
    number of tasks, [shardedCompact] (and so [Compact] in its base case)
    fails with the count-mismatch error in the state the worker left: no
    call to [Concat] is made, whereas every call to [Concat] is recorded. *)
Theorem shardedCompact_count_mismatch (c : DistributedCompactor) (ids : list ID)
    (st st1 st2 : State) (tasks : list CompactionTask) (results : list ID) :
  Shard (storage c) ids (appendTask ids) [] st = (Ok tasks, st1) ->
  workerFunc c tasks st1 = (Ok results, st2) ->
  length results <> length tasks ->
  let failure := (Err (Errorf "results are a different length than tasks"), st2) in
  DistributedCompactor_shardedCompact c ids st = failure /\
  (forall fuel, len ids <= maxFanIn c ->
     DistributedCompactor_Compact (S fuel) c ids st = failure) /\
  concatCalls st1 = concatCalls st /\
  concatCalls (snd (DistributedCompactor_shardedCompact c ids st)) = concatCalls st2 /\
  (forall ids' st0,
     concatCalls (snd (Concat (storage c) ids' st0)) =
     concatCalls st0 ++ [CallConcat ids']).
Proof.
  intros Hshard Hworker Hlen failure.
  assert (DistributedCompactor_shardedCompact c ids st = failure) as Hfail.
  { unfold DistributedCompactor_shardedCompact, bind.
    rewrite Hshard, Hworker.
    by destruct (decide (length results <> length tasks)). }
  split; [exact Hfail|]. split; [|split; [|split]].
  - intros fuel Hbase. simpl.
    destruct (Z.leb_spec (len ids) (maxFanIn c)); [exact Hfail|lia].
  - rewrite Shard_eq in Hshard. simpl in Hshard.
    destruct (layersOf (store st) ids); injection Hshard as _ <-;
      rewrite concatCalls_snoc; simpl; by rewrite app_nil_r.
  - by rewrite Hfail.
  - intros ids' st0. apply Concat_is_recorded.
Qed.

(** ** The child-size loop and the group loop *)


(** The loop entered with [childSize = m^k]: it stops at the first power
    whose quotient is at most [m]. *)
Lemma childSize_loop_power m n : 2 <= m -> n <= int64_max ->
  forall fuel (k : nat),
    (1 <= k)%nat ->
    m ^ Z.of_nat k <= n ->
    n / m ^ Z.of_nat k < Z.of_nat fuel ->
    (forall j : nat, (1 <= j < k)%nat -> n ÷ m ^ Z.of_nat j > m) ->
    exists k' : nat, (k <= k')%nat /\
      childSize_loop fuel n m (m ^ Z.of_nat k) = Ok (m ^ Z.of_nat k') /\
      n ÷ m ^ Z.of_nat k' <= m /\
      (forall j : nat, (1 <= j < k')%nat -> n ÷ m ^ Z.of_nat j > m).
Proof.
  intros Hm Hn. induction fuel as [|fuel IH]; intros k Hk Hle Hfuel Hbefore.
  - assert (0 <= n / m ^ Z.of_nat k); [|lia].
    apply Z.div_pos; [|apply Z.pow_pos_nonneg]; lia.
  - assert (0 < m ^ Z.of_nat k) as Hpos by (apply Z.pow_pos_nonneg; lia).
    simpl. destruct (decide (m ^ Z.of_nat k = 0)) as [|_]; [lia|].
    rewrite Z.quot_div_nonneg by lia.
    destruct (Z.gtb_spec (n / m ^ Z.of_nat k) m) as [Hgt|Hstop].
    + assert (m ^ Z.of_nat (S k) = m ^ Z.of_nat k * m) as Hpow.
      { rewrite Nat2Z.inj_succ, Z.pow_succ_r by lia. lia. }
      assert (m ^ Z.of_nat k * m <= n) as Hle'.
      { assert (m ^ Z.of_nat k * (n / m ^ Z.of_nat k) <= n)
          by (apply Z.mul_div_le; lia).
        nia. }
      unfold int64_mul. rewrite wrap64_small
        by (unfold int64_min, int64_max in *; nia).
      rewrite <- Hpow.
      destruct (IH (S k)) as (k' & Hk' & Hrun & Hq & Hall).
      * lia.
      * rewrite Hpow. exact Hle'.
      * rewrite Hpow, <- Z.div_div by lia.
        assert (n / m ^ Z.of_nat k / m < n / m ^ Z.of_nat k)
          by (apply Z.div_lt; lia).
        lia.
      * intros j Hj. destruct (decide (j = k)) as [->|Hne].
        -- rewrite Z.quot_div_nonneg by lia. lia.
        -- apply Hbefore. lia.
      * exists k'. repeat split; try assumption. lia.
    + exists k. repeat split; try assumption; try lia.
      rewrite Z.quot_div_nonneg by lia. lia.
Qed.

Lemma childSize_loop_exits m n : 2 <= m -> m < n -> n <= int64_max ->
  exists k : nat, (1 <= k)%nat /\
    (forall fuel, (Z.to_nat n <= fuel)%nat ->
       childSize_loop fuel n m m = Ok (m ^ Z.of_nat k)) /\
    n ÷ m ^ Z.of_nat k <= m /\
    (forall j : nat, (1 <= j < k)%nat -> n ÷ m ^ Z.of_nat j > m).
Proof.
  intros Hm Hmn Hn.
  assert (m ^ Z.of_nat 1 = m) as Hm1 by (simpl; lia).
  assert (n / m < n) as Hq by (apply Z.div_lt; lia).
  destruct (childSize_loop_power m n Hm Hn (Z.to_nat n) 1) as (k & Hk & Hrun & Hstop & Hall).
  - lia.
  - rewrite Hm1. lia.
  - rewrite Hm1. lia.
  - intros j Hj. lia.
  - exists k. split; [exact Hk|]. split; [|split; assumption].
    intros fuel Hfuel.
    destruct (childSize_loop_power m n Hm Hn fuel 1) as (k2 & Hk2 & Hrun2 & Hstop2 & Hall2).
    + lia.
    + rewrite Hm1. lia.
    + rewrite Hm1. lia.
    + intros j Hj. lia.
    + rewrite Hm1 in Hrun, Hrun2. rewrite Hrun2. f_equal. f_equal. f_equal.
      destruct (Nat.lt_trichotomy k k2) as [Hlt|[Heq|Hgt]]; [|exact (eq_sym Heq)|].
      * specialize (Hall2 k ltac:(lia)). lia.
      * specialize (Hall k2 ltac:(lia)). lia.
Qed.

Lemma wrap64_over z : int64_max < z < 2 ^ 64 -> wrap64 z = z - 2 ^ 64.
Proof.
  unfold wrap64, int64_max. intros H.
  replace (z + 2 ^ 63) with ((z - 2 ^ 63) + 1 * 2 ^ 64) by lia.
  rewrite Z_mod_plus_full, Z.mod_small; lia.
Qed.

Lemma groups_loop_unfold compact fuel ids childSize start results :
  groups_loop compact (S fuel) ids childSize start results =
  if start <? len ids then
    let end_ := int64_add start childSize in
    let end_ := if end_ >? len ids then len ids else end_ in
    (let* group := lift (slice ids start end_) in
     let* id := compact group in
     groups_loop compact fuel ids childSize (int64_add start childSize)
                 (results ++ [id]))%go
  else ret results.
Proof. reflexivity. Qed.

(** One successful iteration of the group loop: the bounds of the slice and
    what the loop goes on with. *)
Lemma groups_loop_iteration compact fuel ids childSize start results st out st' :
  start < len ids ->
  groups_loop compact (S fuel) ids childSize start results st = (Ok out, st') ->
  let next := int64_add start childSize in
  let end_ := if next >? len ids then len ids else next in
  0 <= start /\ start <= end_ /\ end_ <= len ids /\
  exists id st1,
    compact (take (Z.to_nat (end_ - start)) (drop (Z.to_nat start) ids)) st = (Ok id, st1) /\
    groups_loop compact fuel ids childSize next (results ++ [id]) st1 = (Ok out, st').
Proof.
  intros Hlt Hrun next end_. rewrite groups_loop_unfold in Hrun.
  destruct (Z.ltb_spec start (len ids)) as [_|]; [|lia].
  cbv zeta in Hrun. fold next in Hrun. fold end_ in Hrun.
  unfold bind at 1 in Hrun. unfold lift, slice in Hrun.
  destruct (decide (0 <= start /\ start <= end_ /\ end_ <= len ids))
    as [(H0 & H1 & H2)|]; [|discriminate].
  repeat (split; [assumption|]).
  unfold bind in Hrun.
  destruct (compact (take (Z.to_nat (end_ - start)) (drop (Z.to_nat start) ids)) st)
    as [[id| | |] st1]; try discriminate.
  eauto.
Qed.

(** The number of groups: with a positive [childSize], a successful run of
    the group loop from [start] adds [ceil((len - start) / childSize)]
    results. *)
Lemma groups_loop_count compact ids childSize :
  0 < childSize -> childSize <= int64_max -> len ids <= int64_max ->
  forall fuel start results st out st',
    0 <= start ->
    groups_loop compact fuel ids childSize start results st = (Ok out, st') ->
    exists k : nat, length out = (length results + k)%nat /\
      (len ids <= start -> k = 0%nat) /\
      (start < len ids ->
         start + childSize * (Z.of_nat k - 1) < len ids <= start + childSize * Z.of_nat k).
Proof.
  intros Hcs Hcsmax Hlen. induction fuel as [|fuel IH];
    intros start results st out st' Hstart Hrun; [discriminate|].
  destruct (Z.ltb_spec start (len ids)) as [Hlt|Hge].
  - destruct (groups_loop_iteration _ _ _ _ _ _ _ _ _ Hlt Hrun)
      as (_ & Hlo & Hhi & id & st1 & _ & Hrest).
    unfold int64_add in *.
    destruct (decide (start + childSize <= int64_max)) as [Hfit|Hover].
    + rewrite wrap64_small in Hrest by (unfold int64_min, int64_max in *; lia).
      apply IH in Hrest as (k & Hk & Hzero & Hmore); [|lia].
      rewrite length_app in Hk. simpl in Hk.
      exists (S k). split; [lia|]. split; [lia|]. intros _.
      destruct (decide (len ids <= start + childSize)) as [Hlast|Hnot].
      * rewrite (Hzero Hlast). lia.
      * specialize (Hmore ltac:(lia)). lia.
    + rewrite wrap64_over in Hlo by (unfold int64_max in *; lia).
      destruct (Z.gtb_spec (start + childSize - 2 ^ 64) (len ids));
        unfold int64_max in *; lia.
  - rewrite groups_loop_unfold in Hrun.
    destruct (Z.ltb_spec start (len ids)) as [|_]; [lia|].
    injection Hrun as <- <-. exists 0%nat. split; [lia|]. split; [done|lia].
Qed.

Lemma Distributed_Compact_unfold fuel c ids :
  DistributedCompactor_Compact (S fuel) c ids =
  if len ids <=? maxFanIn c then DistributedCompactor_shardedCompact c ids
  else
    (let* childSize :=
       lift (childSize_loop fuel (len ids) (maxFanIn c) (maxFanIn c)) in
     let* results :=
       groups_loop (DistributedCompactor_Compact fuel c) fuel ids childSize 0 [] in
     DistributedCompactor_Compact fuel c results)%go.
Proof. reflexivity. Qed.

(** C3 (as the code has it). For [maxFanIn >= 2] and more than [maxFanIn]
    ids, [DistributedCompactor.Compact] chooses as child-group size the
    smallest power [maxFanIn^k], [k >= 1], for which the truncated quotient
    [len(ids) / childSize] is at most [maxFanIn]; it splits the ids into
    groups of that size and recurses on the list of group results; the split
    yields [ceil(len(ids) / childSize)] groups, at most [maxFanIn + 1] of
    them. *)
Theorem childSize_choice (c : DistributedCompactor) (ids : list ID) :
  2 <= maxFanIn c -> maxFanIn c < len ids -> len ids <= int64_max ->
  exists k : nat, (1 <= k)%nat /\
    (forall fuel, (length ids <= fuel)%nat ->
       childSize_loop fuel (len ids) (maxFanIn c) (maxFanIn c) =
       Ok (maxFanIn c ^ Z.of_nat k)) /\
    (forall fuel st, (length ids <= fuel)%nat ->
       DistributedCompactor_Compact (S fuel) c ids st =
       (let* results :=
          groups_loop (DistributedCompactor_Compact fuel c) fuel ids
            (maxFanIn c ^ Z.of_nat k) 0 [] in
        DistributedCompactor_Compact fuel c results)%go st) /\
    len ids ÷ maxFanIn c ^ Z.of_nat k <= maxFanIn c /\
    (forall j : nat, (1 <= j < k)%nat -> len ids ÷ maxFanIn c ^ Z.of_nat j > maxFanIn c) /\
    (forall compact fuel st results st',
       groups_loop compact fuel ids (maxFanIn c ^ Z.of_nat k) 0 [] st = (Ok results, st') ->
       maxFanIn c ^ Z.of_nat k * (len results - 1) < len ids
         <= maxFanIn c ^ Z.of_nat k * len results /\
       len results <= maxFanIn c + 1).
Proof.
  intros Hm Hmn Hn.
  set (m := maxFanIn c) in *. set (n := len ids) in *.
  destruct (childSize_loop_exits m n Hm Hmn Hn) as (k & Hk & Hrun & Hstop & Hall).
  assert (forall fuel, (length ids <= fuel)%nat ->
            childSize_loop fuel n m m = Ok (m ^ Z.of_nat k)) as Hrun'.
  { intros fuel Hfuel. apply Hrun. subst n. unfold len. lia. }
  exists k. split; [exact Hk|]. split; [exact Hrun'|]. split.
  { intros fuel st Hfuel. rewrite Distributed_Compact_unfold.
    fold m. fold n. destruct (Z.leb_spec n m) as [|_]; [lia|].
    unfold bind at 1. unfold lift. by rewrite (Hrun' fuel Hfuel). }
  split; [exact Hstop|]. split; [exact Hall|].
  intros compact fuel st results st' Hgroups.
  assert (0 < m ^ Z.of_nat k) as Hpos by (apply Z.pow_pos_nonneg; lia).
  rewrite Z.quot_div_nonneg in Hstop by (subst n; unfold len; lia).
  assert (n < m ^ Z.of_nat k * (m + 1)) as Hbound.
  { pose proof (Z.mul_succ_div_gt n (m ^ Z.of_nat k) Hpos) as Hgt. nia. }
  assert (m ^ Z.of_nat k <= n) as Hcs.
  { destruct (decide (k = 1%nat)) as [->|Hne].
    - simpl. lia.
    - specialize (Hall (k - 1)%nat ltac:(lia)).
      assert (0 < m ^ Z.of_nat (k - 1)) as Hpos' by (apply Z.pow_pos_nonneg; lia).
      rewrite Z.quot_div_nonneg in Hall by (subst n; unfold len; lia).
      assert (m ^ Z.of_nat k = m ^ Z.of_nat (k - 1) * m) as ->.
      { replace (Z.of_nat k) with (Z.succ (Z.of_nat (k - 1))) by lia.
        rewrite Z.pow_succ_r by lia. lia. }
      pose proof (Z.mul_div_le n (m ^ Z.of_nat (k - 1)) Hpos'). nia. }
  destruct (groups_loop_count compact ids (m ^ Z.of_nat k) Hpos ltac:(lia) ltac:(subst n; lia)
              fuel 0 [] st results st' ltac:(lia) Hgroups) as (g & Hg & _ & Hmore).
  simpl in Hg. specialize (Hmore ltac:(subst n; lia)). fold n in Hmore.
  unfold len at 1 2 3. rewrite Hg. split; [lia|]. nia.
Qed.





(** ** Content *)

Lemma flattenEach_ext sub sub' st ext ids :
  (forall ptrs out, sub ptrs = Ok out -> sub' ptrs = Ok out) ->
  forall out, flattenEach sub st ids = Ok out ->
    flattenEach sub' (st ++ ext) ids = Ok out.
Proof.
  intros Hsub. induction ids as [|id rest IH]; intros out Hrun; simpl in *;
    [exact Hrun|].
  unfold Get in *. destruct (st !! id) as [md|] eqn:Hget; [|discriminate].
  rewrite (lookup_app_l_Some _ _ _ _ Hget). simpl in *.
  destruct md as [p|c|]; [| |discriminate].
  - apply rbind_Ok in Hrun as (o & Ho & Hout). by rewrite (IH _ Ho).
  - apply rbind_Ok in Hrun as (ptrs & Hptrs & Hrun).
    apply rbind_Ok in Hrun as (inner & Hinner & Hrun).
    apply rbind_Ok in Hrun as (o & Ho & Hout).
    rewrite Hptrs. simpl. rewrite (Hsub _ _ Hinner). simpl.
    by rewrite (IH _ Ho).
Qed.

Lemma flattenDepth_ext st ext d : forall d' ids out,
  (d <= d')%nat ->
  flattenDepth d st ids = Ok out -> flattenDepth d' (st ++ ext) ids = Ok out.
Proof.
  induction d as [|d IH]; intros d' ids out Hle Hrun; [discriminate|].
  destruct d' as [|d']; [lia|].
  simpl in *. eapply flattenEach_ext; [|exact Hrun].
  intros ptrs o Ho. apply IH; [lia|exact Ho].
Qed.

Lemma flattenStore_ext st ext ids out :
  flattenStore st ids = Ok out -> flattenStore (st ++ ext) ids = Ok out.
Proof.
  unfold flattenStore. apply flattenDepth_ext. rewrite length_app. lia.
Qed.

Lemma layersOf_Ok st ids layers :
  layersOf st ids = Ok layers <->
  exists flat, flattenStore st ids = Ok flat /\ primitivesOf st flat = Ok layers.
Proof.
  unfold layersOf. split.
  - intros H. apply rbind_Ok in H. exact H.
  - intros (flat & -> & H). exact H.
Qed.

Lemma layersOf_ext st ext ids layers :
  layersOf st ids = Ok layers -> layersOf (st ++ ext) ids = Ok layers.
Proof.
  rewrite !layersOf_Ok. intros (flat & Hflat & Hprims). exists flat.
  split; [by apply flattenStore_ext | by apply primitivesOf_app].
Qed.

Lemma contentOf_Ok st ids X :
  contentOf st ids = Ok X <->
  exists layers, layersOf st ids = Ok layers /\ X = bodies layers.
Proof.
  unfold contentOf. split.
  - intros H. apply rbind_Ok in H as (layers & Hl & HX).
    exists layers. split; [exact Hl|congruence].
  - intros (layers & -> & ->). reflexivity.
Qed.

Lemma contentOf_ext st ext ids X :
  contentOf st ids = Ok X -> contentOf (st ++ ext) ids = Ok X.
Proof.
  rewrite !contentOf_Ok. intros (layers & Hl & HX). exists layers.
  split; [by apply layersOf_ext | exact HX].
Qed.

Lemma flattenEach_app sub st a b :
  flattenEach sub st (a ++ b) =
  let? x := flattenEach sub st a in
  let? y := flattenEach sub st b in Ok (x ++ y).
Proof.
  induction a as [|id a IH]; simpl.
  - by destruct (flattenEach sub st b).
  - destruct (Get st id) as [[p|c|]| | |]; simpl; try reflexivity.
    + rewrite IH. destruct (flattenEach sub st a); simpl; try reflexivity.
      by destruct (flattenEach sub st b).
    + destruct (PointsTo c); simpl; try reflexivity.
      destruct (sub a0); simpl; try reflexivity.
      rewrite IH. destruct (flattenEach sub st a); simpl; try reflexivity.
      destruct (flattenEach sub st b); simpl; try reflexivity.
      by rewrite app_assoc.
Qed.

Lemma flattenStore_app st a b :
  flattenStore st (a ++ b) =
  let? x := flattenStore st a in
  let? y := flattenStore st b in Ok (x ++ y).
Proof. unfold flattenStore. simpl. apply flattenEach_app. Qed.

Lemma layersOf_app st a b layers :
  layersOf st (a ++ b) = Ok layers <->
  exists la lb, layersOf st a = Ok la /\ layersOf st b = Ok lb /\ layers = la ++ lb.
Proof.
  rewrite layersOf_Ok. setoid_rewrite layersOf_Ok. rewrite flattenStore_app. split.
  - intros (flat & Hflat & Hprims).
    apply rbind_Ok in Hflat as (x & Hx & Hflat).
    apply rbind_Ok in Hflat as (y & Hy & Hflat). injection Hflat as <-.
    apply primitivesOf_Ok, Forall2_app_inv_l in Hprims
      as (la & lb & Hla & Hlb & ->).
    exists la, lb. repeat split.
    + exists x. split; [exact Hx|by apply primitivesOf_Ok].
    + exists y. split; [exact Hy|by apply primitivesOf_Ok].
  - intros (la & lb & (x & Hx & Hla) & (y & Hy & Hlb) & ->).
    exists (x ++ y). rewrite Hx, Hy. split; [reflexivity|].
    apply primitivesOf_Ok, Forall2_app; by apply primitivesOf_Ok.
Qed.

Lemma bodies_app la lb : bodies (la ++ lb) = bodies la ∪ bodies lb.
Proof. unfold bodies. by rewrite fmap_app, union_list_app_L. Qed.

Lemma contentOf_app st a b X :
  contentOf st (a ++ b) = Ok X <->
  exists Xa Xb, contentOf st a = Ok Xa /\ contentOf st b = Ok Xb /\ X = Xa ∪ Xb.
Proof.
  rewrite contentOf_Ok. setoid_rewrite contentOf_Ok. split.
  - intros (layers & Hl & ->). apply layersOf_app in Hl as (la & lb & Hla & Hlb & ->).
    exists (bodies la), (bodies lb). rewrite bodies_app. eauto 10.
  - intros (Xa & Xb & (la & Hla & ->) & (lb & Hlb & ->) & ->).
    exists (la ++ lb). rewrite bodies_app. split; [|reflexivity].
    apply layersOf_app. eauto.
Qed.

Lemma contentOf_nil st : contentOf st [] = Ok ∅.
Proof. reflexivity. Qed.

(** The content of a reference to a primitive is the primitive's body. *)
Lemma contentOf_primitive st r p :
  primitiveIn st r p -> contentOf st [r] = Ok (body p).
Proof.
  intros Hp. apply contentOf_Ok. exists [p]. split.
  - apply layersOf_primitives, primitivesOf_Ok.
    constructor; [exact Hp|constructor].
  - unfold bodies. simpl. by rewrite (right_id_L ∅ (∪)).
Qed.

(** The sequential compactor keeps the content. *)
Lemma Compact_content s fuel : forall ids st r st' X,
  Storage_Compact fuel s ids st = (Ok r, st') ->
  contentOf (store st) ids = Ok X ->
  contentOf (store st') [r] = Ok X.
Proof.
  induction fuel as [|fuel IH]; intros ids st r st' X Hrun HX; [discriminate|].
  apply contentOf_Ok in HX as (layers & Hlayers & ->).
  apply layersOf_Ok in Hlayers as (flat & Hflat & Hprims).
  rewrite (Compact_step _ _ _ _ _ _ Hflat Hprims) in Hrun. simpl in Hrun.
  destruct (decide (indexOfCompacted (levelFactor s) layers = length layers))
    as [Hdone|Hmore].
  - rewrite Compose_eq in Hrun. injection Hrun as <- <-. simpl.
    apply contentOf_Ok. exists layers. split; [|reflexivity].
    eapply layersOf_composite.
    + by apply primitivesOf_app.
    + by apply list_lookup_middle.
  - destruct (Compact_merge_branch s st flat layers
                (indexOfCompacted (levelFactor s) layers) Hprims) as [Hmerge Hids2].
    unfold bind in Hrun. rewrite Hmerge in Hrun.
    eapply IH; [exact Hrun|].
    apply contentOf_Ok. eexists. split; [apply layersOf_primitives, Hids2|].
    rewrite bodies_app. unfold bodies at 3. simpl.
    rewrite (right_id_L ∅ (∪)), <- bodies_app. by rewrite take_drop.
Qed.

Lemma visitRanges_appendTask ids ranges : forall tasks,
  visitRanges (appendTask ids) ranges tasks =
  Ok (tasks ++ ((fun r => {| Inputs := ids; PathRange_ := r |}) <$> ranges)).
Proof.
  induction ranges as [|r ranges IH]; intros tasks; simpl.
  - by rewrite app_nil_r.
  - rewrite IH. by rewrite <- app_assoc.
Qed.

Lemma restrictTo_cover (ranges : list PathRange) (X : gset Path) :
  (forall p, p ∈ X -> exists r, r ∈ ranges /\ inRange r p = true) ->
  ⋃ ((fun r => restrictTo r X) <$> ranges) = X.
Proof.
  intros Hcover. apply set_eq. intros p. rewrite elem_of_union_list. split.
  - intros (Y & HY & Hp). apply list_elem_of_fmap in HY as (r & -> & _).
    unfold restrictTo in Hp. by apply elem_of_filter in Hp as [_ Hp].
  - intros Hp. destruct (Hcover p Hp) as (r & Hr & Hin).
    exists (restrictTo r X). split.
    + apply list_elem_of_fmap. eauto.
    + unfold restrictTo. apply elem_of_filter. split; [|exact Hp].
      by rewrite Hin.
Qed.

(** The primitives behind the results of a batch. *)
Lemma worker_results (st : list Metadata) (X : gset Path)
    (tasks : list CompactionTask) (results : list ID) :
  Forall2 (fun t r => exists p, primitiveIn st r p /\
                        body p = restrictTo (PathRange_ t) X) tasks results ->
  exists ps, primitivesOf st results = Ok ps /\
    bodies ps = ⋃ ((fun t => restrictTo (PathRange_ t) X) <$> tasks).
Proof.
  induction 1 as [|t r tasks results (p & Hp & Hbody) _ (ps & Hps & Hbodies)].
  - exists []. split; reflexivity.
  - exists (p :: ps). split.
    + apply primitivesOf_Ok. constructor; [exact Hp|by apply primitivesOf_Ok].
    + unfold bodies in *. rewrite !fmap_cons. simpl. by rewrite Hbody, Hbodies.
Qed.

(** The base case of the distributed compactor keeps the content. *)
Lemma shardedCompact_content c :
  shardsCover (storage c) -> workerContract c ->
  preservesContent (DistributedCompactor_shardedCompact c).
Proof.
  intros Hcover Hworker ids st r st' X Hrun HX.
  pose proof HX as HX'.
  apply contentOf_Ok in HX' as (layers & Hlayers & ->).
  unfold DistributedCompactor_shardedCompact in Hrun. unfold bind at 1 in Hrun.
  rewrite Shard_eq, Hlayers in Hrun. cbv zeta in Hrun.
  rewrite visitRanges_appendTask in Hrun. simpl app in Hrun.
  set (tasks := (fun r => {| Inputs := ids; PathRange_ := r |}) <$>
                shardRanges (storage c) (bodies layers)) in *.
  set (st1 := {| store := store st; calls := calls st ++ [CallShard ids] |}) in *.
  unfold bind at 1 in Hrun.
  destruct (workerFunc c tasks st1) as [[results| | |] st2] eqn:Hbatch;
    try discriminate.
  destruct (decide (length results <> length tasks)); [discriminate|].
  destruct (Hworker _ _ _ _ Hbatch) as [[ext Hext] Hresults]. simpl in Hext.
  destruct (worker_results (store st2) (bodies layers) tasks results)
    as (ps & Hps & Hbodies).
  { subst tasks. apply Forall2_fmap_l. apply Forall2_fmap_l in Hresults.
    eapply Forall2_impl; [exact Hresults|]. simpl. intros range res Hres.
    apply Hres. exact HX. }
  rewrite Concat_eq, (layersOf_primitives _ _ _ Hps) in Hrun.
  injection Hrun as <- <-. split.
  - exists (ext ++ [Metadata_Primitive
                      {| SizeBytes := writeSize (storage c) ps; body := bodies ps |}]).
    simpl. rewrite Hext. by rewrite <- app_assoc.
  - simpl.
    rewrite (contentOf_primitive _ _
               {| SizeBytes := writeSize (storage c) ps; body := bodies ps |})
      by (by apply list_lookup_middle).
    simpl. rewrite Hbodies. subst tasks. rewrite <- list_fmap_compose.
    f_equal. apply restrictTo_cover. apply Hcover.
Qed.

(** The group loop keeps the content: the results hold what the results so
    far and the ids from [start] on held. *)
Lemma groups_loop_content compact ids childSize :
  preservesContent compact ->
  forall fuel start results st out st' Xdone Xrest,
    groups_loop compact fuel ids childSize start results st = (Ok out, st') ->
    contentOf (store st) results = Ok Xdone ->
    contentOf (store st) (drop (Z.to_nat start) ids) = Ok Xrest ->
    (exists ext, store st' = store st ++ ext) /\
    contentOf (store st') out = Ok (Xdone ∪ Xrest).
Proof.
  intros Hcompact. induction fuel as [|fuel IH];
    intros start results st out st' Xdone Xrest Hrun Hdone Hrest; [discriminate|].
  destruct (Z.ltb_spec start (len ids)) as [Hlt|Hge].
  - destruct (groups_loop_iteration _ _ _ _ _ _ _ _ _ Hlt Hrun)
      as (Hstart & Hlo & Hhi & id & st1 & Hgroup & Hloop).
    set (next := int64_add start childSize) in *.
    set (end_ := if next >? len ids then len ids else next) in *.
    set (group := take (Z.to_nat (end_ - start)) (drop (Z.to_nat start) ids)) in *.
    assert (drop (Z.to_nat start) ids = group ++ drop (Z.to_nat next) ids) as Hsplit.
    { subst group. rewrite <- (take_drop (Z.to_nat (end_ - start))
                                 (drop (Z.to_nat start) ids)) at 1.
      f_equal. rewrite drop_drop. subst end_.
      destruct (Z.gtb_spec next (len ids)) as [Hpast|Hin].
      - rewrite !drop_ge; [reflexivity| |]; unfold len in *; lia.
      - f_equal. lia. }
    rewrite Hsplit in Hrest.
    apply contentOf_app in Hrest as (Xgroup & Xnext & Hgroup' & Hnext & ->).
    destruct (Hcompact _ _ _ _ _ Hgroup Hgroup') as [[ext1 Hext1] Hid].
    destruct (IH next (results ++ [id]) st1 out st' (Xdone ∪ Xgroup) Xnext Hloop)
      as [[ext2 Hext2] Hout].
    + apply contentOf_app. exists Xdone, Xgroup.
      split; [|split; [exact Hid|reflexivity]].
      rewrite Hext1. by apply contentOf_ext.
    + rewrite Hext1. by apply contentOf_ext.
    + split.
      * exists (ext1 ++ ext2). by rewrite Hext2, Hext1, <- app_assoc.
      * rewrite Hout. f_equal. by rewrite (assoc_L (∪)).
  - rewrite groups_loop_unfold in Hrun.
    destruct (Z.ltb_spec start (len ids)) as [|_]; [lia|].
    injection Hrun as <- <-.
    rewrite drop_ge in Hrest by (unfold len in *; lia).
    rewrite contentOf_nil in Hrest. injection Hrest as <-.
    split; [exists []; by rewrite app_nil_r|].
    by rewrite (right_id_L ∅ (∪)).
Qed.

(** The distributed compactor keeps the content. *)
Lemma Distributed_Compact_content c :
  shardsCover (storage c) -> workerContract c ->
  forall fuel, preservesContent (DistributedCompactor_Compact fuel c).
Proof.
  intros Hcover Hworker. induction fuel as [|fuel IH];
    intros ids st r st' X Hrun HX; [discriminate|].
  simpl in Hrun. destruct (len ids <=? maxFanIn c).
  - eapply shardedCompact_content; eassumption.
  - unfold bind at 1 in Hrun. unfold lift in Hrun.
    destruct (childSize_loop fuel (len ids) (maxFanIn c) (maxFanIn c))
      as [childSize| | |]; try discriminate.
    unfold bind in Hrun.
    destruct (groups_loop (DistributedCompactor_Compact fuel c) fuel ids childSize 0 [] st)
      as [[results| | |] st1] eqn:Hgroups; try discriminate.
    destruct (groups_loop_content _ ids childSize IH _ _ _ _ _ _ ∅ X Hgroups)
      as [[ext1 Hext1] Hresults].
    + apply contentOf_nil.
    + exact HX.
    + rewrite (left_id_L ∅ (∪)) in Hresults.
      destruct (IH _ _ _ _ _ Hrun Hresults) as [[ext2 Hext2] Hr].
      split; [|exact Hr].
      exists (ext1 ++ ext2). by rewrite Hext2, Hext1, <- app_assoc.
Qed.

(** C8 (as the code has it). Given the contracts of [Shard] and of the
    worker, a successful distributed compaction returns a fileset whose
    flattened primitives hold the same set of paths as those of the fileset
    a successful sequential [Storage.Compact] returns on the same input,
    namely the paths the input held. *)
Theorem Distributed_Compact_same_content (c : DistributedCompactor)
    (ids : list ID) (st : State) (fuel fuel' : nat)
    (r r' : ID) (st1 st1' : State) :
  shardsCover (storage c) ->
  workerContract c ->
  DistributedCompactor_Compact fuel c ids st = (Ok r, st1) ->
  Storage_Compact fuel' (storage c) ids st = (Ok r', st1') ->
  exists X, contentOf (store st) ids = Ok X /\
    contentOf (store st1) [r] = Ok X /\
    contentOf (store st1') [r'] = Ok X.
Proof.
  intros Hcover Hworker Hdist Hseq.
  assert (exists X, contentOf (store st) ids = Ok X) as [X HX].
  { destruct fuel' as [|fuel']; [discriminate|].
    rewrite Compact_unfold in Hseq. unfold bind at 1 in Hseq.
    unfold Flatten, reading in Hseq.
    destruct (flattenStore (store st) ids) as [flat| | |] eqn:Hflat; try discriminate.
    unfold bind at 1 in Hseq. rewrite getPrimitiveBatch_eq in Hseq.
    destruct (primitivesOf (store st) flat) as [layers| | |] eqn:Hprims;
      try discriminate.
    exists (bodies layers). apply contentOf_Ok. exists layers.
    split; [|reflexivity]. apply layersOf_Ok. eauto. }
  exists X. split; [exact HX|]. split.
  - eapply Distributed_Compact_content; eassumption.
  - eapply Compact_content; eassumption.
Qed.

(** ** The in-process worker meets the worker contract *)

Lemma runTask_Ok s t st id st' :
  runTask s t st = (Ok id, st') ->
  exists layers, layersOf (store st) (Inputs t) = Ok layers /\
    id = length (store st) /\
    store st' = store st ++
      [Metadata_Primitive {| SizeBytes := writeSize s layers;
                             body := restrictTo (PathRange_ t) (bodies layers) |}].
Proof.
  unfold runTask, bind, reading, create. intros Hrun.
  destruct (layersOf (store st) (Inputs t)) as [layers| | |]; try discriminate.
  injection Hrun as <- <-. eauto.
Qed.

Lemma localWorker_contract s maxFanIn :
  workerContract (NewDistributedCompactor s maxFanIn (localWorker s)).
Proof.
  unfold workerContract. simpl. intros tasks.
  induction tasks as [|t rest IH]; intros st results st' Hrun.
  - injection Hrun as <- <-. split; [exists []; by rewrite app_nil_r|constructor].
  - simpl in Hrun. unfold bind at 1 in Hrun.
    destruct (runTask s t st) as [[id| | |] st1] eqn:Htask; try discriminate.
    unfold bind at 1 in Hrun.
    destruct (localWorker s rest st1) as [[ids| | |] st2] eqn:Hrest; try discriminate.
    injection Hrun as <- <-.
    apply runTask_Ok in Htask as (layers & Hlayers & -> & Hst1).
    destruct (IH _ _ _ Hrest) as [[ext Hext] Hall].
    split; [exists ([Metadata_Primitive
                       {| SizeBytes := writeSize s layers;
                          body := restrictTo (PathRange_ t) (bodies layers) |}] ++ ext);
            by rewrite Hext, Hst1, <- app_assoc|].
    constructor.
    + intros X HX. apply contentOf_Ok in HX as (layers' & Hlayers' & ->).
      rewrite Hlayers in Hlayers'. injection Hlayers' as <-.
      exists {| SizeBytes := writeSize s layers;
                body := restrictTo (PathRange_ t) (bodies layers) |}.
      split; [|reflexivity].
      unfold primitiveIn. rewrite Hext, Hst1.
      apply lookup_app_l_Some. by apply list_lookup_middle.
    + eapply Forall2_impl; [exact Hall|]. simpl. intros t' r' Hr' X HX.
      apply Hr'. rewrite Hst1. by apply contentOf_ext.
Qed.

Lemma twoShards_cover : shardsCover exampleStorage.
Proof.
  intros X p _. simpl. unfold twoShards.
  destruct (N.ltb_spec p 3) as [Hlt|Hge].
  - exists {| Lower := None; Upper := Some 3%N |}. split; [set_solver|].
    unfold inRange. simpl. by apply N.ltb_lt.
  - exists {| Lower := Some 3%N; Upper := None |}. split; [set_solver|].
    unfold inRange. simpl. rewrite andb_true_r. by apply N.leb_le.
Qed.

(** ** The theorems at concrete inputs *)

(** C1 on layers of sizes 1000, 5 and 4 with factor 10: the result has the
    two layers 1000 and 9. *)
Lemma Compact_restores_invariant_witness :
  exists layers,
    layersOf (store (snd (Storage_Compact 5 exampleStorage [0; 1; 2]%nat mergeState)))
             [4%nat] = Ok layers /\
    (forall j a b, layers !! j = Some a -> layers !! (j + 1)%nat = Some b ->
       SizeBytes a >= int64_mul (SizeBytes b) (levelFactor exampleStorage)) /\
    (forall j a b, layers !! j = Some a -> layers !! (j + 1)%nat = Some b ->
       in_int64 (SizeBytes b * levelFactor exampleStorage) ->
       SizeBytes a >= SizeBytes b * levelFactor exampleStorage).
Proof.
  apply (Compact_restores_invariant 5 exampleStorage [0; 1; 2]%nat mergeState).
  vm_compute. reflexivity.
Defined.

(** C1 as stated fails: with the positive factor 10 and layers of sizes 5
    and 2^62, the product 2^62 * 10 wraps to a negative [int64], the two
    layers count as compacted, and [Compact] returns a composite over them
    although 5 is below 2^62 * 10. *)
Lemma Compact_restores_invariant_counterexample :
  0 < levelFactor exampleStorage /\
  fst (Storage_Compact 3 exampleStorage [0; 1]%nat overflowState) = Ok 2%nat /\
  rbind (layersOf (store (snd (Storage_Compact 3 exampleStorage [0; 1]%nat overflowState)))
                  [2%nat])
        (fun layers => Ok (SizeBytes <$> layers)) = Ok [5; 2 ^ 62] /\
  int64_mul (2 ^ 62) (levelFactor exampleStorage) = - 2 ^ 63 /\
  5 < 2 ^ 62 * levelFactor exampleStorage.
Proof.
  repeat split; vm_compute; reflexivity.
Qed.

(** C4 on sizes 100, 50, 4 and factor 10, where every product fits. *)
Lemma indexOfCompacted_correct_witness :
  ((indexOfCompacted 10 [mkPrimitive 100 ∅; mkPrimitive 50 ∅; mkPrimitive 4 ∅]
    <= length [mkPrimitive 100 ∅; mkPrimitive 50 ∅; mkPrimitive 4 ∅])%nat /\
   compactedThroughZ 10 [mkPrimitive 100 ∅; mkPrimitive 50 ∅; mkPrimitive 4 ∅]
     (indexOfCompacted 10 [mkPrimitive 100 ∅; mkPrimitive 50 ∅; mkPrimitive 4 ∅]) /\
   forall i,
     (i <= length [mkPrimitive 100 ∅; mkPrimitive 50 ∅; mkPrimitive 4 ∅])%nat ->
     compactedThroughZ 10 [mkPrimitive 100 ∅; mkPrimitive 50 ∅; mkPrimitive 4 ∅] i ->
     (i <= indexOfCompacted 10
             [mkPrimitive 100 ∅; mkPrimitive 50 ∅; mkPrimitive 4 ∅])%nat) /\
  (forall j a b,
     [mkPrimitive 100 ∅; mkPrimitive 50 ∅; mkPrimitive 4 ∅] !! j = Some a ->
     [mkPrimitive 100 ∅; mkPrimitive 50 ∅; mkPrimitive 4 ∅] !! (j + 1)%nat = Some b ->
     SizeBytes a < SizeBytes b * 10 ->
     compactedThroughZ 10 [mkPrimitive 100 ∅; mkPrimitive 50 ∅; mkPrimitive 4 ∅] j ->
     indexOfCompacted 10 [mkPrimitive 100 ∅; mkPrimitive 50 ∅; mkPrimitive 4 ∅] = j /\
     indexOfCompacted 10 [mkPrimitive 100 ∅; mkPrimitive 50 ∅; mkPrimitive 4 ∅]
       <> (j + 1)%nat).
Proof.
  apply (proj2 (indexOfCompacted_correct 10
                  [mkPrimitive 100 ∅; mkPrimitive 50 ∅; mkPrimitive 4 ∅])).
  repeat constructor; simpl; unfold int64_min, int64_max; lia.
Defined.

(** C4 as stated fails: for factor 10 and sizes 5 and 2^62 the product wraps,
    the pair passes the test of line 66 and the index is the length 2,
    although over the integers the pair (0, 1) violates the relationship. *)
Lemma indexOfCompacted_correct_counterexample :
  indexOfCompacted 10 [mkPrimitive 5 ∅; mkPrimitive (2 ^ 62) ∅] = 2%nat /\
  isCompacted 10 [mkPrimitive 5 ∅; mkPrimitive (2 ^ 62) ∅] = true /\
  5 < 2 ^ 62 * 10.
Proof.
  repeat split; vm_compute; reflexivity.
Qed.

(** C5 on the composite over two compacted layers. *)
Lemma IsCompacted_correct_witness :
  exists b,
    Storage_IsCompacted exampleStorage 2%nat compositeState = (Ok b, compositeState) /\
    (b = true <->
     forall j, pairOK (levelFactor exampleStorage)
                 [ {| SizeBytes := 100; body := list_to_set [1; 2]%N |};
                   {| SizeBytes := 1; body := list_to_set [3]%N |} ] j) /\
    (productsFit (levelFactor exampleStorage)
       [ {| SizeBytes := 100; body := list_to_set [1; 2]%N |};
         {| SizeBytes := 1; body := list_to_set [3]%N |} ] ->
     (b = true <->
      forall j, pairOKZ (levelFactor exampleStorage)
                  [ {| SizeBytes := 100; body := list_to_set [1; 2]%N |};
                    {| SizeBytes := 1; body := list_to_set [3]%N |} ] j)).
Proof.
  apply (proj1 (proj2 (IsCompacted_correct exampleStorage 2%nat compositeState))
           {| Layers := [Some 0%nat; Some 1%nat] |} [0; 1]%nat); reflexivity.
Defined.

(** C5 as stated fails: on a composite over layers of sizes 5 and 2^62, with
    factor 10, [IsCompacted] answers true although 5 is below 2^62 * 10. *)
Lemma IsCompacted_correct_counterexample :
  Storage_IsCompacted exampleStorage 2%nat overflowCompositeState =
    (Ok true, overflowCompositeState) /\
  rbind (layersOf (store overflowCompositeState) [2%nat])
        (fun layers => Ok (SizeBytes <$> layers)) = Ok [5; 2 ^ 62] /\
  5 < 2 ^ 62 * levelFactor exampleStorage.
Proof.
  repeat split; vm_compute; reflexivity.
Qed.

(** C2: [Compact] on the composite over two compacted layers. *)
Lemma Compact_composes_flattened_witness :
  Storage_Compact 3 exampleStorage [2%nat] compositeState =
    Compose exampleStorage [0; 1]%nat compositeState /\
  calls (snd (Storage_Compact 3 exampleStorage [2%nat] compositeState)) =
    calls compositeState ++ [CallCompose [0; 1]%nat] /\
  store (snd (Storage_Compact 3 exampleStorage [2%nat] compositeState)) =
    store compositeState ++
      [Metadata_Composite {| Layers := Some <$> [0; 1]%nat |}].
Proof.
  apply (Compact_composes_flattened 2 exampleStorage [2%nat] [0; 1]%nat
           [ {| SizeBytes := 100; body := list_to_set [1; 2]%N |};
             {| SizeBytes := 1; body := list_to_set [3]%N |} ] compositeState);
    reflexivity.
Defined.

(** C2 as stated fails: the input [[2]] is compacted, and the one call to
    [Compose] is over the flattened list [[0; 1]], not over [[2]]. *)
Lemma Compact_composes_original_counterexample :
  rbind (layersOf (store compositeState) [2%nat])
        (fun layers => Ok (isCompacted 10 layers)) = Ok true /\
  calls (snd (Storage_Compact 3 exampleStorage [2%nat] compositeState)) =
    [CallCompose [0; 1]%nat] /\
  calls (snd (Compose exampleStorage [2%nat] compositeState)) =
    [CallCompose [2%nat]] /\
  Storage_Compact 3 exampleStorage [2%nat] compositeState <>
    Compose exampleStorage [2%nat] compositeState.
Proof.
  repeat split; try reflexivity.
  intros Heq. apply (f_equal (fun r => calls (snd r))) in Heq.
  vm_compute in Heq. discriminate.
Qed.

Lemma scenarioState_wf : wfStore (store scenarioState).
Proof.
  intros [|[|[|id]]] c ptrs Hget; simpl in Hget; discriminate.
Qed.

(** C6 on the scenario of the specification. *)
Lemma Compact_terminates_witness :
  (exists n r st', r <> OutOfFuel /\
     forall fuel, (n <= fuel)%nat ->
       Storage_Compact fuel exampleStorage [0; 1; 2]%nat scenarioState = (r, st')) /\
  (forall fuel flat layers,
     flattenStore (store scenarioState) [0; 1; 2]%nat = Ok flat ->
     primitivesOf (store scenarioState) flat = Ok layers ->
     let i := indexOfCompacted (levelFactor exampleStorage) layers in
     i <> length layers ->
     exists merged st1,
       Merge exampleStorage (drop i flat) scenarioState = (Ok merged, st1) /\
       let ids2 := [] ++ take i flat ++ [merged] in
       Storage_Compact (S fuel) exampleStorage [0; 1; 2]%nat scenarioState =
         Storage_Compact fuel exampleStorage ids2 st1 /\
       flattenStore (store st1) ids2 = Ok ids2 /\
       (2 <= length (drop i flat))%nat /\
       (length ids2 + 1 <= length flat)%nat).
Proof.
  apply (Compact_terminates exampleStorage [0; 1; 2]%nat scenarioState).
  apply flattenStore_total, scenarioState_wf.
Defined.

(** C10 on a composite without layers. *)
Lemma IsCompacted_composite_without_layers_witness :
  indexOfCompacted (levelFactor exampleStorage) [] = 0%nat /\
  Storage_IsCompacted exampleStorage 0%nat hollowState = (Ok true, hollowState).
Proof.
  apply (IsCompacted_composite_without_layers exampleStorage 0%nat hollowState
           {| Layers := [] |} []); reflexivity.
Defined.

(** C7 with a worker that returns one result fewer than it was given tasks. *)
Lemma shardedCompact_count_mismatch_witness :
  S (length [2%nat]) = length (twoShards ∅) /\
  DistributedCompactor_shardedCompact lossyCompactor [0; 1]%nat compactedState =
    (Err (Errorf "results are a different length than tasks"),
     snd (lossyWorker
            ((fun r => {| Inputs := [0; 1]%nat; PathRange_ := r |}) <$> twoShards ∅)
            {| store := store compactedState; calls := [CallShard [0; 1]%nat] |})) /\
  concatCalls (snd (DistributedCompactor_shardedCompact lossyCompactor [0; 1]%nat
                      compactedState)) = [].
Proof.
  pose proof (shardedCompact_count_mismatch lossyCompactor [0; 1]%nat compactedState
                {| store := store compactedState; calls := [CallShard [0; 1]%nat] |}
                (snd (lossyWorker
                        ((fun r => {| Inputs := [0; 1]%nat; PathRange_ := r |})
                           <$> twoShards ∅)
                        {| store := store compactedState;
                           calls := [CallShard [0; 1]%nat] |}))
                ((fun r => {| Inputs := [0; 1]%nat; PathRange_ := r |}) <$> twoShards ∅)
                [2%nat]) as H.
  destruct H as (Hfail & _ & _ & Hcalls & _).
  - vm_compute. reflexivity.
  - vm_compute. reflexivity.
  - simpl. lia.
  - split; [reflexivity|]. split; [exact Hfail|].
    rewrite Hcalls. reflexivity.
Defined.

(** C3 for five ids and a fan-in of two. *)
Lemma childSize_choice_witness :
  exists k : nat, (1 <= k)%nat /\
    (forall fuel, (length [0; 1; 2; 3; 4]%nat <= fuel)%nat ->
       childSize_loop fuel (len [0; 1; 2; 3; 4]%nat) (maxFanIn (localCompactor 2))
         (maxFanIn (localCompactor 2)) =
       Ok (maxFanIn (localCompactor 2) ^ Z.of_nat k)) /\
    (forall fuel st, (length [0; 1; 2; 3; 4]%nat <= fuel)%nat ->
       DistributedCompactor_Compact (S fuel) (localCompactor 2) [0; 1; 2; 3; 4]%nat st =
       (let* results :=
          groups_loop (DistributedCompactor_Compact fuel (localCompactor 2)) fuel
            [0; 1; 2; 3; 4]%nat (maxFanIn (localCompactor 2) ^ Z.of_nat k) 0 [] in
        DistributedCompactor_Compact fuel (localCompactor 2) results)%go st) /\
    len [0; 1; 2; 3; 4]%nat ÷ maxFanIn (localCompactor 2) ^ Z.of_nat k
      <= maxFanIn (localCompactor 2) /\
    (forall j : nat, (1 <= j < k)%nat ->
       len [0; 1; 2; 3; 4]%nat ÷ maxFanIn (localCompactor 2) ^ Z.of_nat j
         > maxFanIn (localCompactor 2)) /\
    (forall compact fuel st results st',
       groups_loop compact fuel [0; 1; 2; 3; 4]%nat
         (maxFanIn (localCompactor 2) ^ Z.of_nat k) 0 [] st = (Ok results, st') ->
       maxFanIn (localCompactor 2) ^ Z.of_nat k * (len results - 1)
         < len [0; 1; 2; 3; 4]%nat
         <= maxFanIn (localCompactor 2) ^ Z.of_nat k * len results /\
       len results <= maxFanIn (localCompactor 2) + 1).
Proof.
  apply (childSize_choice (localCompactor 2) [0; 1; 2; 3; 4]%nat);
    unfold int64_max, len; simpl; lia.
Defined.

(** C3 as stated fails: for five ids and a fan-in of two the loop chooses
    [childSize = 2], which splits the ids into three groups, so [Compact]
    recurses on a list of three results; the power 4 would give two. *)
Lemma childSize_choice_counterexample :
  childSize_loop 5 (len [0; 1; 2; 3; 4]%nat) 2 2 = Ok 2 /\
  fst (groups_loop (DistributedCompactor_Compact 5 (localCompactor 2)) 5
         [0; 1; 2; 3; 4]%nat 2 0 [] fiveState) = Ok [7; 10; 13]%nat /\
  DistributedCompactor_Compact 6 (localCompactor 2) [0; 1; 2; 3; 4]%nat fiveState =
    DistributedCompactor_Compact 5 (localCompactor 2) [7; 10; 13]%nat
      (snd (groups_loop (DistributedCompactor_Compact 5 (localCompactor 2)) 5
              [0; 1; 2; 3; 4]%nat 2 0 [] fiveState)) /\
  len [7; 10; 13]%nat > maxFanIn (localCompactor 2) /\
  fst (groups_loop (DistributedCompactor_Compact 5 (localCompactor 2)) 5
         [0; 1; 2; 3; 4]%nat 4 0 [] fiveState) = Ok [13; 16]%nat.
Proof.
  repeat split; vm_compute; reflexivity.
Qed.



(** C8 on two compacted layers and a fan-in of two. *)
Lemma Distributed_Compact_same_content_witness :
  exists X, contentOf (store compactedState) [0; 1]%nat = Ok X /\
    contentOf (store (snd (DistributedCompactor_Compact 3 (localCompactor 2)
                             [0; 1]%nat compactedState))) [4%nat] = Ok X /\
    contentOf (store (snd (Storage_Compact 3 exampleStorage
                             [0; 1]%nat compactedState))) [2%nat] = Ok X.
Proof.
  apply (Distributed_Compact_same_content (localCompactor 2) [0; 1]%nat
           compactedState 3 3 4%nat 2%nat).
  - exact twoShards_cover.
  - apply localWorker_contract.
  - vm_compute. reflexivity.
  - vm_compute. reflexivity.
Defined.

(** C8 as stated fails: on two compacted layers the sequential compactor
    returns a composite over the two input primitives, the distributed
    compactor one new primitive. *)
Lemma Distributed_Compact_same_primitives_counterexample :
  shardsCover exampleStorage /\
  workerContract (localCompactor 2) /\
  fst (DistributedCompactor_Compact 3 (localCompactor 2) [0; 1]%nat compactedState)
    = Ok 4%nat /\
  fst (Storage_Compact 3 exampleStorage [0; 1]%nat compactedState) = Ok 2%nat /\
  flattenStore (store (snd (DistributedCompactor_Compact 3 (localCompactor 2)
                              [0; 1]%nat compactedState))) [4%nat] = Ok [4%nat] /\
  flattenStore (store (snd (Storage_Compact 3 exampleStorage
                              [0; 1]%nat compactedState))) [2%nat] = Ok [0; 1]%nat /\
  (list_to_set [4%nat] : gset ID) <> list_to_set [0; 1]%nat.
Proof.
  split; [exact twoShards_cover|]. split; [apply localWorker_contract|].
  repeat split; try (vm_compute; reflexivity).
  intros Heq. assert (4%nat ∈ (list_to_set [0; 1]%nat : gset ID)) as Hin.
  { rewrite <- Heq. set_solver. }
  set_solver.
Qed.

(** * Further properties of compaction.go *)

(** ** [getPrimitiveBatch] *)

(** X1. [getPrimitiveBatch] succeeds exactly when every id refers to a
    primitive; it then returns those primitives, one per id and in the order
    of the ids, and leaves the state as it was. *)
Theorem getPrimitiveBatch_success (ids : list ID) (st st' : State)
    (layers : list Primitive) :
  getPrimitiveBatch ids st = (Ok layers, st') <->
  st' = st /\ length layers = length ids /\
  forall k id, ids !! k = Some id ->
    exists p, layers !! k = Some p /\ store st !! id = Some (Metadata_Primitive p).
Proof.
  rewrite getPrimitiveBatch_eq. split.
  - intros H. injection H as Hprims <-. split; [reflexivity|].
    pose proof (primitivesOf_length _ _ _ Hprims) as Hlen. split; [exact Hlen|].
    apply primitivesOf_Ok in Hprims. intros k id Hk.
    destruct (Forall2_lookup_l _ _ _ _ _ Hprims Hk) as (p & Hp & Hin). eauto.
  - intros (-> & Hlen & Hall). f_equal. apply primitivesOf_Ok.
    apply Forall2_same_length_lookup. split; [by rewrite Hlen|].
    intros k id p Hid Hp. destruct (Hall k id Hid) as (p' & Hp' & Hin).
    rewrite Hp in Hp'. injection Hp' as <-. exact Hin.
Qed.

(** X2. [getPrimitiveBatch] returns the error of the first id that
    [getPrimitive] cannot read as a primitive, whatever follows it, and
    leaves the state as it was. *)
Theorem getPrimitiveBatch_first_error (before after : list ID) (id : ID)
    (st : State) (e : error) :
  Forall (fun i => exists p, getPrimitive i st = (Ok p, st)) before ->
  getPrimitive id st = (Err e, st) ->
  getPrimitiveBatch (before ++ id :: after) st = (Err e, st).
Proof.
  intros Hbefore Hid. rewrite getPrimitiveBatch_eq. f_equal.
  unfold getPrimitive, reading in *.
  induction Hbefore as [|i before (p & Hi) _ IH]; simpl.
  - injection Hid as ->. reflexivity.
  - injection Hi as ->. simpl. by rewrite IH.
Qed.

Lemma getPrimitiveBatch_first_error_witness :
  getPrimitiveBatch ([0%nat] ++ 7%nat :: [1%nat]) scenarioState =
  (Err (ErrLookup 7%nat), scenarioState).
Proof.
  apply (getPrimitiveBatch_first_error [0%nat] [1%nat] 7%nat scenarioState).
  - constructor; [|constructor]. eexists. reflexivity.
  - reflexivity.
Defined.

(** ** [Storage.IsCompacted] *)

(** X3. [IsCompacted] returns the errors of its reads unchanged: the lookup
    error for an id the store cannot read, the resolution error of a
    composite whose pointer list is malformed, and the error [Flatten]
    reports for the pointer list. *)
Theorem IsCompacted_read_errors (s : Storage) (id : ID) (st : State) :
  (store st !! id = None ->
   Storage_IsCompacted s id st = (Err (ErrLookup id), st)) /\
  (forall c e,
     store st !! id = Some (Metadata_Composite c) -> PointsTo c = Err e ->
     Storage_IsCompacted s id st = (Err e, st)) /\
  (forall c ptrs e,
     store st !! id = Some (Metadata_Composite c) -> PointsTo c = Ok ptrs ->
     Flatten ptrs st = (Err e, st) ->
     Storage_IsCompacted s id st = (Err e, st)).
Proof.
  unfold Storage_IsCompacted, bind, reading, lift, Get.
  split; [|split].
  - intros ->. reflexivity.
  - intros c e -> ->. reflexivity.
  - intros c ptrs e -> -> ->. reflexivity.
Qed.

(** ** [isCompacted] and [indexOfCompacted] *)

(** X4. A list of layers put together from two lists is compacted exactly
    when both lists are compacted and the last layer of the first satisfies
    the compacted relationship with the first layer of the second. *)
Theorem isCompacted_app (factor : Z) (front back : list Primitive) :
  isCompacted factor (front ++ back) = true <->
  isCompacted factor front = true /\
  isCompacted factor back = true /\
  (forall x y, last front = Some x -> head back = Some y ->
     SizeBytes x >= int64_mul (SizeBytes y) factor).
Proof.
  rewrite !isCompacted_pairs. split.
  - intros Hall. split; [|split].
    + intros j a b Ha Hb. apply (Hall j a b).
      * by apply lookup_app_l_Some.
      * by apply lookup_app_l_Some.
    + intros j a b Ha Hb. apply (Hall (length front + j)%nat a b).
      * by rewrite lookup_app_r, Nat.add_comm, Nat.add_sub by lia.
      * rewrite lookup_app_r by lia.
        by replace (length front + j + 1 - length front)%nat with (j + 1)%nat by lia.
    + intros x y Hx Hy. rewrite last_lookup in Hx. rewrite head_lookup in Hy.
      pose proof (lookup_lt_Some _ _ _ Hx) as Hlt.
      apply (Hall (pred (length front)) x y).
      * by apply lookup_app_l_Some.
      * rewrite lookup_app_r by lia.
        by replace (pred (length front) + 1 - length front)%nat with 0%nat by lia.
  - intros (Hfront & Hback & Hjoin) j a b Ha Hb.
    destruct (decide (j + 1 < length front)%nat) as [Hin|Hout].
    + rewrite lookup_app_l in Ha by lia. rewrite lookup_app_l in Hb by lia.
      by apply (Hfront j).
    + destruct (decide (j + 1 = length front)%nat) as [Hedge|Hpast].
      * rewrite lookup_app_l in Ha by lia. rewrite lookup_app_r in Hb by lia.
        apply Hjoin.
        -- rewrite last_lookup. by replace (pred (length front)) with j by lia.
        -- rewrite head_lookup.
           by replace (j + 1 - length front)%nat with 0%nat in Hb by lia.
      * rewrite lookup_app_r in Ha by lia. rewrite lookup_app_r in Hb by lia.
        apply (Hback (j - length front)%nat); [exact Ha|].
        by replace (j - length front + 1)%nat with (j + 1 - length front)%nat by lia.
Qed.

(** X5. Sizes decay geometrically along a compacted list: when the factor is
    at least 2, every size is at least 1 and no product [size * factor]
    leaves the [int64] range, the first layer is at least [factor^j] times
    the layer at index [j], and the list has at most 62 layers. *)
Theorem compacted_sizes_decay (factor : Z) (layers : list Primitive) :
  2 <= factor ->
  Forall (fun p => 1 <= SizeBytes p /\ SizeBytes p * factor <= int64_max) layers ->
  isCompacted factor layers = true ->
  (forall j a b, layers !! 0%nat = Some a -> layers !! j = Some b ->
     factor ^ Z.of_nat j * SizeBytes b <= SizeBytes a) /\
  (length layers <= 62)%nat.
Proof.
  intros Hf Hsizes Hcompacted.
  assert (forall j a b, layers !! 0%nat = Some a -> layers !! j = Some b ->
            factor ^ Z.of_nat j * SizeBytes b <= SizeBytes a) as Hdecay.
  { induction j as [|j IH]; intros a b Ha Hb.
    - rewrite Ha in Hb. injection Hb as <-. simpl. lia.
    - destruct (lookup_lt_is_Some_2 layers j) as [c Hc].
      { apply lookup_lt_Some in Hb. lia. }
      specialize (IH a c Ha Hc).
      pose proof (proj1 (isCompacted_pairs _ _) Hcompacted j c b Hc) as Hpair.
      replace (j + 1)%nat with (S j) in Hpair by lia. specialize (Hpair Hb).
      pose proof (proj1 (Forall_lookup _ _) Hsizes _ _ Hb) as [Hb1 Hb2].
      unfold int64_mul in Hpair.
      rewrite wrap64_small in Hpair by (unfold int64_min, int64_max in *; nia).
      assert (0 < factor ^ Z.of_nat j) by (apply Z.pow_pos_nonneg; lia).
      rewrite Nat2Z.inj_succ, Z.pow_succ_r by lia. nia. }
  split; [exact Hdecay|].
  destruct layers as [|a rest]; [simpl; lia|].
  destruct (lookup_lt_is_Some_2 (a :: rest) (length rest)) as [b Hb];
    [simpl; lia|].
  specialize (Hdecay (length rest) a b eq_refl Hb).
  pose proof (proj1 (Forall_lookup _ _) Hsizes _ _ Hb) as [Hb1 _].
  pose proof (proj1 (Forall_lookup _ _) Hsizes 0%nat a eq_refl) as [_ Ha2].
  assert (2 ^ Z.of_nat (length rest) <= factor ^ Z.of_nat (length rest)) as Hpow
    by (apply Z.pow_le_mono_l; lia).
  assert (0 < 2 ^ Z.of_nat (length rest)) by (apply Z.pow_pos_nonneg; lia).
  assert (2 ^ Z.of_nat (length rest) < 2 ^ 62) as Hlt
    by (unfold int64_max in *; nia).
  apply Z.pow_lt_mono_r_iff in Hlt; [|lia|lia]. simpl. lia.
Qed.

Lemma compacted_sizes_decay_witness :
  (forall j a b,
     [mkPrimitive 100 ∅; mkPrimitive 10 ∅; mkPrimitive 1 ∅] !! 0%nat = Some a ->
     [mkPrimitive 100 ∅; mkPrimitive 10 ∅; mkPrimitive 1 ∅] !! j = Some b ->
     10 ^ Z.of_nat j * SizeBytes b <= SizeBytes a) /\
  (length [mkPrimitive 100 ∅; mkPrimitive 10 ∅; mkPrimitive 1 ∅] <= 62)%nat.
Proof.
  apply (compacted_sizes_decay 10
           [mkPrimitive 100 ∅; mkPrimitive 10 ∅; mkPrimitive 1 ∅]).
  - lia.
  - repeat constructor; simpl; unfold int64_max; lia.
  - reflexivity.
Defined.

(** X6. One merge round lowers the break point by at most one: when the
    layers from index [i = indexOfCompacted] on are replaced by a single
    layer, of whatever size, the index of the new list is at least [i - 1]. *)
Theorem indexOfCompacted_after_merge (factor : Z) (layers : list Primitive)
    (merged : Primitive) :
  indexOfCompacted factor layers <> length layers ->
  (indexOfCompacted factor layers - 1 <=
   indexOfCompacted factor (take (indexOfCompacted factor layers) layers ++ [merged]))%nat.
Proof.
  intros Hshort.
  destruct (indexOfCompacted_spec factor layers) as [[Hfull _]|(Hlt & _ & Hthrough)];
    [done|].
  set (i := indexOfCompacted factor layers) in *.
  destruct (indexOfCompacted_spec factor (take i layers ++ [merged]))
    as [[Hr _]|(Hlt' & Hbad & _)].
  - rewrite Hr, length_app, length_take. simpl. lia.
  - set (r := indexOfCompacted factor (take i layers ++ [merged])) in *.
    destruct (decide (i - 1 <= r)%nat) as [Hle|Hgt]; [exact Hle|].
    destruct Hbad. intros a b Ha Hb.
    rewrite lookup_app_l in Ha by (rewrite length_take; lia).
    rewrite lookup_app_l in Hb by (rewrite length_take; lia).
    rewrite lookup_take_lt in Ha by lia. rewrite lookup_take_lt in Hb by lia.
    apply (Hthrough r ltac:(lia) a b Ha Hb).
Qed.

(** For sizes 100, 10, 9 and factor 10 the index is 1; merging the last two
    layers into one of size 19 gives sizes 100, 19 and the index 0. *)
Lemma indexOfCompacted_after_merge_witness :
  indexOfCompacted 10 [mkPrimitive 100 ∅; mkPrimitive 10 ∅; mkPrimitive 9 ∅] = 1%nat /\
  indexOfCompacted 10 [mkPrimitive 100 ∅; mkPrimitive 19 ∅] = 0%nat /\
  (indexOfCompacted 10 [mkPrimitive 100 ∅; mkPrimitive 10 ∅; mkPrimitive 9 ∅] - 1 <=
   indexOfCompacted 10
     (take (indexOfCompacted 10 [mkPrimitive 100 ∅; mkPrimitive 10 ∅; mkPrimitive 9 ∅])
           [mkPrimitive 100 ∅; mkPrimitive 10 ∅; mkPrimitive 9 ∅]
      ++ [mkPrimitive 19 ∅]))%nat.
Proof.
  split; [reflexivity|]. split; [reflexivity|].
  apply (indexOfCompacted_after_merge 10
           [mkPrimitive 100 ∅; mkPrimitive 10 ∅; mkPrimitive 9 ∅] (mkPrimitive 19 ∅)).
  vm_compute. discriminate.
Defined.

(** ** [Storage.Compact] *)

Lemma Compact_Ok_reads fuel s ids st r st' :
  Storage_Compact fuel s ids st = (Ok r, st') ->
  exists flat layers,
    flattenStore (store st) ids = Ok flat /\ primitivesOf (store st) flat = Ok layers.
Proof.
  intros Hrun. destruct fuel as [|fuel]; [discriminate|].
  rewrite Compact_unfold in Hrun. unfold bind at 1 in Hrun.
  unfold Flatten, reading in Hrun.
  destruct (flattenStore (store st) ids) as [flat| | |]; try discriminate.
  unfold bind at 1 in Hrun. rewrite getPrimitiveBatch_eq in Hrun.
  destruct (primitivesOf (store st) flat) as [layers| | |] eqn:Hprims;
    try discriminate.
  eauto.
Qed.

Lemma Compact_outcome s fuel : forall ids st r st' flat layers,
  Storage_Compact fuel s ids st = (Ok r, st') ->
  flattenStore (store st) ids = Ok flat ->
  primitivesOf (store st) flat = Ok layers ->
  compactOutcome s st flat layers r st'.
Proof.
  induction fuel as [|fuel IH]; intros ids st r st' flat layers Hrun Hflat Hprims;
    [discriminate|].
  pose proof (primitivesOf_length _ _ _ Hprims) as Hlen.
  rewrite (Compact_step _ _ _ _ _ _ Hflat Hprims) in Hrun. simpl in Hrun.
  destruct (decide (indexOfCompacted (levelFactor s) layers = length layers))
    as [Hdone|Hmore].
  - rewrite Compose_eq in Hrun. injection Hrun as <- <-.
    exists (length flat), [], [],
      [Metadata_Composite {| Layers := Some <$> flat |}], layers.
    rewrite app_nil_r, firstn_all. simpl.
    split; [by left|]. split; [reflexivity|].
    split; [rewrite length_app; simpl; lia|].
    split; [by apply list_lookup_middle|]. split; [reflexivity|].
    split; [constructor|]. split; [lia|].
    split; [by apply primitivesOf_app|]. split; [reflexivity|].
    unfold isCompacted. by apply bool_decide_eq_true.
  - set (i := indexOfCompacted (levelFactor s) layers) in *.
    destruct (Compact_merge_branch s st flat layers i Hprims) as [Hmerge Hids2].
    pose proof (indexOfCompacted_short _ _ Hmore) as Hshort. fold i in Hshort.
    unfold bind in Hrun. rewrite Hmerge in Hrun.
    set (newp := {| SizeBytes := writeSize s (drop i layers);
                    body := bodies (drop i layers) |}) in *.
    set (st1 := written s (CallMerge (drop i flat)) (drop i layers) st) in *.
    destruct (IH _ _ _ _ _ _ Hrun (flattenStore_primitives _ _ _ Hids2) Hids2)
      as (k2 & fresh2 & merges2 & ext2 & layers' & Hcase & Hext & Hr & Hlookup
          & Hcalls & Hmerges & Hcount & Hprims' & Hprefix & Hcompacted).
    assert (length ([] ++ take i flat ++ [length (store st)]) = S i) as Hlen2.
    { simpl. rewrite length_app, length_take. simpl. lia. }
    assert (store st' = store st ++ Metadata_Primitive newp :: ext2) as Hext'.
    { rewrite Hext. subst st1. simpl. by rewrite <- app_assoc. }
    assert (calls st' = calls st ++ (CallMerge (drop i flat) :: merges2) ++
              [CallCompose (take k2 ([] ++ take i flat ++ [length (store st)]) ++ fresh2)])
      as Hcalls'.
    { rewrite Hcalls. subst st1. simpl. by rewrite <- app_assoc. }
    destruct Hcase as [(Hk2 & -> & ->)|(Hk2 & Hne & new2 & -> & Hnew2)].
    + rewrite Hlen2 in Hk2. subst k2.
      rewrite <- Hlen2, firstn_all in Hlookup, Hcalls', Hprims'.
      rewrite app_nil_r in Hlookup, Hcalls', Hprims'. simpl app in Hlookup, Hcalls', Hprims'.
      exists i, [length (store st)], [CallMerge (drop i flat)],
        (Metadata_Primitive newp :: ext2), layers'.
      split.
      { right. split; [lia|]. split; [done|]. eauto. }
      split; [exact Hext'|]. split; [exact Hr|]. split; [exact Hlookup|].
      split; [exact Hcalls'|]. split; [by repeat constructor|].
      split; [simpl; lia|]. split; [exact Hprims'|]. split; [|exact Hcompacted].
      apply (f_equal (take i)) in Hprefix.
      rewrite !take_take in Hprefix.
      replace (i `min` S i)%nat with i in Hprefix by lia.
      rewrite Hprefix, take_app_le by (rewrite length_take; lia).
      rewrite take_take. f_equal. lia.
    + rewrite Hlen2 in Hk2.
      assert (take k2 ([] ++ take i flat ++ [length (store st)]) = take k2 flat) as Htake.
      { simpl. rewrite take_app_le by (rewrite length_take; lia).
        rewrite take_take. f_equal. lia. }
      rewrite Htake in Hlookup, Hcalls', Hprims'.
      exists k2, [new2], (CallMerge (drop i flat) :: merges2),
        (Metadata_Primitive newp :: ext2), layers'.
      split.
      { right. split; [lia|]. split; [done|]. exists new2. split; [reflexivity|].
        subst st1. simpl in Hnew2. rewrite length_app in Hnew2. simpl in Hnew2. lia. }
      split; [exact Hext'|]. split; [exact Hr|]. split; [exact Hlookup|].
      split; [exact Hcalls'|]. split; [by constructor|].
      split; [rewrite Hlen2 in Hcount; simpl; lia|].
      split; [exact Hprims'|]. split; [|exact Hcompacted].
      rewrite Hprefix, take_app_le by (rewrite length_take; lia).
      rewrite take_take. f_equal. lia.
Qed.

(** X8. The fileset a successful [Storage.Compact] returns flattens to a
    prefix of the flattened input, followed either by nothing (the whole
    input was kept) or by one new primitive that stands for at least two of
    the input layers.  The layers of the prefix are the input's own. *)
Theorem Compact_keeps_prefix (fuel : nat) (s : Storage) (ids flat : list ID)
    (st st' : State) (r : ID) :
  Storage_Compact fuel s ids st = (Ok r, st') ->
  flattenStore (store st) ids = Ok flat ->
  exists (k : nat) (fresh : list ID),
    flattenStore (store st') [r] = Ok (take k flat ++ fresh) /\
    ((k = length flat /\ fresh = []) \/
     ((k + 2 <= length flat)%nat /\
      exists new, fresh = [new] /\ (length (store st) <= new)%nat)) /\
    (forall j id, (j < k)%nat -> flat !! j = Some id ->
       store st' !! id = store st !! id).
Proof.
  intros Hrun Hflat.
  destruct (Compact_Ok_reads _ _ _ _ _ _ Hrun) as (flat' & layers & Hflat' & Hprims).
  rewrite Hflat in Hflat'. injection Hflat' as <-.
  destruct (Compact_outcome _ _ _ _ _ _ _ _ Hrun Hflat Hprims)
    as (k & fresh & merges & ext & layers' & Hcase & Hext & _ & Hlookup & _ & _ & _
        & Hprims' & _ & _).
  exists k, fresh. split; [|split].
  - by destruct (layersOf_composite _ _ _ _ Hprims' Hlookup).
  - destruct Hcase as [(? & ? & _)|(? & _ & ?)]; [by left|by right].
  - intros j id Hj Hid. rewrite Hext.
    apply primitivesOf_Ok in Hprims.
    destruct (Forall2_lookup_l _ _ _ _ _ Hprims Hid) as (p & _ & Hp).
    unfold primitiveIn in Hp. rewrite Hp. by apply lookup_app_l_Some.
Qed.

Lemma Compact_keeps_prefix_witness :
  exists (k : nat) (fresh : list ID),
    flattenStore (store (snd (Storage_Compact 5 exampleStorage [0; 1; 2]%nat cascadeState)))
      [5%nat] = Ok (take k [0; 1; 2]%nat ++ fresh) /\
    ((k = length [0; 1; 2]%nat /\ fresh = []) \/
     ((k + 2 <= length [0; 1; 2]%nat)%nat /\
      exists new, fresh = [new] /\ (length (store cascadeState) <= new)%nat)) /\
    (forall j id, (j < k)%nat -> [0; 1; 2]%nat !! j = Some id ->
       store (snd (Storage_Compact 5 exampleStorage [0; 1; 2]%nat cascadeState)) !! id =
       store cascadeState !! id).
Proof.
  apply (Compact_keeps_prefix 5 exampleStorage [0; 1; 2]%nat [0; 1; 2]%nat cascadeState).
  - vm_compute. reflexivity.
  - reflexivity.
Defined.

(** X9. The calls of a successful [Storage.Compact] are merges followed by
    exactly one [Compose], its last call; there are fewer merges than
    flattened input layers, and none when the input is already compacted or
    empty. *)
Theorem Compact_calls (fuel : nat) (s : Storage) (ids flat : list ID)
    (st st' : State) (r : ID) :
  Storage_Compact fuel s ids st = (Ok r, st') ->
  flattenStore (store st) ids = Ok flat ->
  exists (merges : list Call) (composed : list ID),
    calls st' = calls st ++ merges ++ [CallCompose composed] /\
    Forall (fun c => isMergeCall c = true) merges /\
    (length merges + 1 <= max 1 (length flat))%nat /\
    (forall layers, primitivesOf (store st) flat = Ok layers ->
       isCompacted (levelFactor s) layers = true -> merges = []).
Proof.
  intros Hrun Hflat.
  destruct (Compact_Ok_reads _ _ _ _ _ _ Hrun) as (flat' & layers & Hflat' & Hprims).
  rewrite Hflat in Hflat'. injection Hflat' as <-.
  destruct (Compact_outcome _ _ _ _ _ _ _ _ Hrun Hflat Hprims)
    as (k & fresh & merges & ext & layers' & _ & _ & _ & _ & Hcalls & Hmerges & Hcount & _).
  exists merges, (take k flat ++ fresh).
  split; [exact Hcalls|]. split; [exact Hmerges|]. split; [exact Hcount|].
  intros layers0 Hprims0 Hcompacted.
  rewrite Hprims in Hprims0. injection Hprims0 as <-.
  unfold isCompacted in Hcompacted. apply bool_decide_eq_true in Hcompacted.
  destruct fuel as [|fuel]; [discriminate|].
  rewrite (Compact_step _ _ _ _ _ _ Hflat Hprims) in Hrun. simpl in Hrun.
  destruct (decide (indexOfCompacted (levelFactor s) layers = length layers)); [|done].
  rewrite Compose_eq in Hrun. injection Hrun as _ <-. simpl in Hcalls.
  apply app_inv_head in Hcalls.
  destruct merges as [|m merges]; [reflexivity|].
  apply (f_equal length) in Hcalls. simpl in Hcalls.
  rewrite length_app in Hcalls. simpl in Hcalls. lia.
Qed.

Lemma Compact_calls_witness :
  exists (merges : list Call) (composed : list ID),
    calls (snd (Storage_Compact 5 exampleStorage [0; 1; 2]%nat cascadeState)) =
      calls cascadeState ++ merges ++ [CallCompose composed] /\
    Forall (fun c => isMergeCall c = true) merges /\
    (length merges + 1 <= max 1 (length [0; 1; 2]%nat))%nat /\
    (forall layers, primitivesOf (store cascadeState) [0; 1; 2]%nat = Ok layers ->
       isCompacted (levelFactor exampleStorage) layers = true -> merges = []).
Proof.
  apply (Compact_calls 5 exampleStorage [0; 1; 2]%nat [0; 1; 2]%nat cascadeState
           (snd (Storage_Compact 5 exampleStorage [0; 1; 2]%nat cascadeState)) 5%nat).
  - vm_compute. reflexivity.
  - reflexivity.
Defined.

(** X10. What [Storage.Compact] returns is compacted: [IsCompacted] on the
    returned reference, in the state [Compact] left, answers true. *)
Theorem IsCompacted_after_Compact (fuel : nat) (s : Storage) (ids : list ID)
    (st st' : State) (r : ID) :
  Storage_Compact fuel s ids st = (Ok r, st') ->
  Storage_IsCompacted s r st' = (Ok true, st').
Proof.
  intros Hrun.
  destruct (Compact_Ok_reads _ _ _ _ _ _ Hrun) as (flat & layers & Hflat & Hprims).
  destruct (Compact_outcome _ _ _ _ _ _ _ _ Hrun Hflat Hprims)
    as (k & fresh & merges & ext & layers' & _ & _ & _ & Hlookup & _ & _ & _
        & Hprims' & _ & Hcompacted).
  rewrite (IsCompacted_composite s r st' _ (take k flat ++ fresh) Hlookup).
  - rewrite (layersOf_primitives _ _ _ Hprims'). simpl. by rewrite Hcompacted.
  - unfold PointsTo. simpl. apply decodeLayers_Some.
Qed.

Lemma IsCompacted_after_Compact_witness :
  Storage_IsCompacted exampleStorage 5%nat
    (snd (Storage_Compact 5 exampleStorage [0; 1; 2]%nat cascadeState)) =
  (Ok true, snd (Storage_Compact 5 exampleStorage [0; 1; 2]%nat cascadeState)).
Proof.
  apply (IsCompacted_after_Compact 5 exampleStorage [0; 1; 2]%nat cascadeState).
  vm_compute. reflexivity.
Defined.

(** X12. A successful [Storage.Compact] keeps the content: the fileset it
    returns holds exactly the paths the input references held. *)
Theorem Compact_keeps_content (fuel : nat) (s : Storage) (ids : list ID)
    (st st' : State) (r : ID) :
  Storage_Compact fuel s ids st = (Ok r, st') ->
  exists X, contentOf (store st) ids = Ok X /\ contentOf (store st') [r] = Ok X.
Proof.
  intros Hrun.
  destruct (Compact_Ok_reads _ _ _ _ _ _ Hrun) as (flat & layers & Hflat & Hprims).
  assert (contentOf (store st) ids = Ok (bodies layers)) as HX.
  { apply contentOf_Ok. exists layers. split; [|reflexivity].
    apply layersOf_Ok. eauto. }
  exists (bodies layers). split; [exact HX|].
  eapply Compact_content; eassumption.
Qed.

Lemma Compact_keeps_content_witness :
  exists X, contentOf (store cascadeState) [0; 1; 2]%nat = Ok X /\
    contentOf (store (snd (Storage_Compact 5 exampleStorage [0; 1; 2]%nat cascadeState)))
      [5%nat] = Ok X.
Proof.
  apply (Compact_keeps_content 5 exampleStorage [0; 1; 2]%nat cascadeState).
  vm_compute. reflexivity.
Defined.

(** X13. Compacting again changes no layer: [Storage.Compact] on the
    reference a successful [Compact] returned makes no merge and composes
    the very references that reference flattens to. *)
Theorem Compact_again (fuel fuel' : nat) (s : Storage) (ids : list ID)
    (st st' : State) (r : ID) :
  Storage_Compact fuel s ids st = (Ok r, st') ->
  exists flat',
    flattenStore (store st') [r] = Ok flat' /\
    Storage_Compact (S fuel') s [r] st' = Compose s flat' st'.
Proof.
  intros Hrun.
  destruct (Compact_Ok_reads _ _ _ _ _ _ Hrun) as (flat & layers & Hflat & Hprims).
  destruct (Compact_outcome _ _ _ _ _ _ _ _ Hrun Hflat Hprims)
    as (k & fresh & merges & ext & layers' & _ & _ & _ & Hlookup & _ & _ & _
        & Hprims' & _ & Hcompacted).
  destruct (layersOf_composite _ _ _ _ Hprims' Hlookup) as [Hflat' _].
  exists (take k flat ++ fresh). split; [exact Hflat'|].
  rewrite (Compact_step _ _ _ _ _ _ Hflat' Hprims'). simpl.
  unfold isCompacted in Hcompacted. apply bool_decide_eq_true in Hcompacted.
  by destruct (decide (indexOfCompacted (levelFactor s) layers' = length layers')).
Qed.

Lemma Compact_again_witness :
  exists flat',
    flattenStore (store (snd (Storage_Compact 5 exampleStorage [0; 1; 2]%nat cascadeState)))
      [5%nat] = Ok flat' /\
    Storage_Compact (S 0) exampleStorage [5%nat]
      (snd (Storage_Compact 5 exampleStorage [0; 1; 2]%nat cascadeState)) =
    Compose exampleStorage flat'
      (snd (Storage_Compact 5 exampleStorage [0; 1; 2]%nat cascadeState)).
Proof.
  apply (Compact_again 5 0 exampleStorage [0; 1; 2]%nat cascadeState).
  vm_compute. reflexivity.
Defined.

(** ** [shardedCompact] *)

(** X14. [shardedCompact] hands the worker one task per path range of
    [Shard], in the order of the ranges, and every task carries the full
    list [ids]; the worker is called once, on this batch. *)
Theorem shardedCompact_tasks (c : DistributedCompactor) (ids : list ID)
    (st : State) (layers : list Primitive) :
  layersOf (store st) ids = Ok layers ->
  let tasks := (fun r => {| Inputs := ids; PathRange_ := r |}) <$>
               shardRanges (storage c) (bodies layers) in
  let st1 := {| store := store st; calls := calls st ++ [CallShard ids] |} in
  Shard (storage c) ids (appendTask ids) [] st = (Ok tasks, st1) /\
  DistributedCompactor_shardedCompact c ids st =
    (let* results := workerFunc c tasks in
     if decide (length results <> length tasks)
     then lift (Err (Errorf "results are a different length than tasks"))
     else Concat (storage c) results)%go st1.
Proof.
  intros Hlayers tasks st1.
  assert (Shard (storage c) ids (appendTask ids) [] st = (Ok tasks, st1)) as Hshard.
  { rewrite Shard_eq, Hlayers. cbv zeta. by rewrite visitRanges_appendTask. }
  split; [exact Hshard|].
  unfold DistributedCompactor_shardedCompact. unfold bind at 1.
  by rewrite Hshard.
Qed.

Lemma shardedCompact_tasks_witness :
  Shard exampleStorage [0; 1]%nat (appendTask [0; 1]%nat) [] compactedState =
    (Ok [ {| Inputs := [0; 1]%nat;
             PathRange_ := {| Lower := None; Upper := Some 3%N |} |};
          {| Inputs := [0; 1]%nat;
             PathRange_ := {| Lower := Some 3%N; Upper := None |} |} ],
     {| store := store compactedState; calls := [CallShard [0; 1]%nat] |}) /\
  DistributedCompactor_shardedCompact (localCompactor 2) [0; 1]%nat compactedState =
    (let* results :=
       localWorker exampleStorage
         [ {| Inputs := [0; 1]%nat;
              PathRange_ := {| Lower := None; Upper := Some 3%N |} |};
           {| Inputs := [0; 1]%nat;
              PathRange_ := {| Lower := Some 3%N; Upper := None |} |} ] in
     if decide (length results <> 2%nat)
     then lift (Err (Errorf "results are a different length than tasks"))
     else Concat exampleStorage results)%go
      {| store := store compactedState; calls := [CallShard [0; 1]%nat] |}.
Proof.
  apply (shardedCompact_tasks (localCompactor 2) [0; 1]%nat compactedState
           [ {| SizeBytes := 100; body := list_to_set [1; 2]%N |};
             {| SizeBytes := 1; body := list_to_set [3]%N |} ]).
  reflexivity.
Defined.

(** X15. [shardedCompact] returns the errors of its collaborators unchanged
    and stops there: when the input cannot be sharded the worker's answer
    plays no part, and when the worker fails the state is the one the worker
    left, with no call to [Concat]. *)
Theorem shardedCompact_errors (c : DistributedCompactor) (ids : list ID) (st : State) :
  (forall e worker,
     layersOf (store st) ids = Err e ->
     DistributedCompactor_shardedCompact
       (NewDistributedCompactor (storage c) (maxFanIn c) worker) ids st =
     (Err e, {| store := store st; calls := calls st ++ [CallShard ids] |})) /\
  (forall tasks st1 e st2,
     Shard (storage c) ids (appendTask ids) [] st = (Ok tasks, st1) ->
     workerFunc c tasks st1 = (Err e, st2) ->
     DistributedCompactor_shardedCompact c ids st = (Err e, st2) /\
     concatCalls st1 = concatCalls st).
Proof.
  split.
  - intros e worker Hlayers.
    unfold DistributedCompactor_shardedCompact. unfold bind at 1. simpl.
    by rewrite Shard_eq, Hlayers.
  - intros tasks st1 e st2 Hshard Hworker. split.
    + unfold DistributedCompactor_shardedCompact, bind.
      by rewrite Hshard, Hworker.
    + rewrite Shard_eq in Hshard. simpl in Hshard.
      destruct (layersOf (store st) ids); injection Hshard as _ <-;
        rewrite concatCalls_snoc; simpl; by rewrite app_nil_r.
Qed.

(** ** [DistributedCompactor.Compact] *)

Lemma groups_loop_partition_from compact ids childSize :
  0 < childSize -> childSize <= int64_max -> len ids <= int64_max ->
  forall fuel start results st out st',
    0 <= start ->
    groups_loop compact fuel ids childSize start results st = (Ok out, st') ->
    exists groups rs,
      out = results ++ rs /\
      concat groups = drop (Z.to_nat start) ids /\
      Forall (fun g => (1 <= length g)%nat /\ len g <= childSize) groups /\
      (forall j g, (j + 1 < length groups)%nat -> groups !! j = Some g ->
         len g = childSize) /\
      compactEach compact groups st = (Ok rs, st').
Proof.
  intros Hcs Hcsmax Hlen. induction fuel as [|fuel IH];
    intros start results st out st' Hstart Hrun; [discriminate|].
  destruct (Z.ltb_spec start (len ids)) as [Hlt|Hge].
  - destruct (groups_loop_iteration _ _ _ _ _ _ _ _ _ Hlt Hrun)
      as (_ & Hlo & Hhi & id & st1 & Hgroup & Hloop).
    unfold int64_add in *.
    destruct (decide (start + childSize <= int64_max)) as [Hfit|Hover].
    + rewrite wrap64_small in * by (unfold int64_min, int64_max in *; lia).
      set (end_ := if start + childSize >? len ids then len ids
                   else start + childSize) in *.
      set (group := take (Z.to_nat (end_ - start)) (drop (Z.to_nat start) ids)) in *.
      apply IH in Hloop as (groups & rs & -> & Hconcat & Hall & Hfull & Heach); [|lia].
      assert (end_ <= start + childSize /\ start < end_) as [Hend1 Hend2].
      { subst end_. destruct (Z.gtb_spec (start + childSize) (len ids)); lia. }
      assert (length group = Z.to_nat (end_ - start)) as Hglen.
      { subst group. rewrite length_take, length_drop. unfold len in *. lia. }
      exists (group :: groups), (id :: rs).
      split; [by rewrite <- app_assoc|]. split; [|split; [|split]].
      * simpl. rewrite Hconcat. subst group.
        rewrite <- (take_drop (Z.to_nat (end_ - start)) (drop (Z.to_nat start) ids)) at 2.
        f_equal. rewrite drop_drop. subst end_.
        destruct (Z.gtb_spec (start + childSize) (len ids)) as [Hpast|Hin].
        -- rewrite !drop_ge; [reflexivity| |]; unfold len in *; lia.
        -- f_equal. lia.
      * constructor; [|exact Hall]. unfold len. rewrite Hglen. lia.
      * intros [|j] g Hj Hg; simpl in *.
        -- injection Hg as <-. unfold len. rewrite Hglen.
           destruct groups as [|g' groups]; [simpl in Hj; lia|].
           assert (start + childSize < len ids) as Hin.
           { destruct (decide (start + childSize < len ids)) as [|Hpast]; [done|].
             rewrite drop_ge in Hconcat by (unfold len in *; lia).
             inversion Hall as [|? ? [Hg' _] _]; subst.
             simpl in Hconcat. destruct g'; [simpl in Hg'; lia|discriminate]. }
           subst end_. destruct (Z.gtb_spec (start + childSize) (len ids)); lia.
        -- apply (Hfull j g); [lia|exact Hg].
      * simpl. unfold bind at 1. rewrite Hgroup. unfold bind. by rewrite Heach.
    + rewrite wrap64_over in Hlo by (unfold int64_max in *; lia).
      destruct (Z.gtb_spec (start + childSize - 2 ^ 64) (len ids));
        unfold int64_max in *; lia.
  - rewrite groups_loop_unfold in Hrun.
    destruct (Z.ltb_spec start (len ids)) as [|_]; [lia|].
    injection Hrun as <- <-. exists [], [].
    split; [by rewrite app_nil_r|]. split.
    + rewrite drop_ge; [reflexivity|unfold len in *; lia].
    + split; [constructor|]. split; [|reflexivity].
      intros j g Hj. simpl in Hj. lia.
Qed.

(** X17. The group loop compacts a partition of [ids]: the groups it hands
    to the recursive call, left to right, are consecutive slices that
    concatenate to [ids]; none is empty, all but the last have exactly
    [childSize] references and the last has at most [childSize]. *)
Theorem groups_loop_partition (compact : list ID -> M ID) (fuel : nat)
    (ids : list ID) (childSize : Z) (st st' : State) (results : list ID) :
  0 < childSize -> childSize <= int64_max -> len ids <= int64_max ->
  groups_loop compact fuel ids childSize 0 [] st = (Ok results, st') ->
  exists groups,
    concat groups = ids /\
    Forall (fun g => (1 <= length g)%nat /\ len g <= childSize) groups /\
    (forall j g, (j + 1 < length groups)%nat -> groups !! j = Some g ->
       len g = childSize) /\
    compactEach compact groups st = (Ok results, st').
Proof.
  intros Hcs Hcsmax Hlen Hrun.
  destruct (groups_loop_partition_from compact ids childSize Hcs Hcsmax Hlen
              fuel 0 [] st results st' ltac:(lia) Hrun)
    as (groups & rs & -> & Hconcat & Hall & Hfull & Heach).
  exists groups. simpl in *. repeat split; assumption.
Qed.

Lemma groups_loop_partition_witness :
  exists groups,
    concat groups = [0; 1; 2; 3; 4]%nat /\
    Forall (fun g => (1 <= length g)%nat /\ len g <= 2) groups /\
    (forall j g, (j + 1 < length groups)%nat -> groups !! j = Some g -> len g = 2) /\
    compactEach (DistributedCompactor_Compact 5 (localCompactor 2)) groups fiveState =
      (Ok [7; 10; 13]%nat,
       snd (groups_loop (DistributedCompactor_Compact 5 (localCompactor 2)) 5
              [0; 1; 2; 3; 4]%nat 2 0 [] fiveState)).
Proof.
  apply (groups_loop_partition (DistributedCompactor_Compact 5 (localCompactor 2)) 5
           [0; 1; 2; 3; 4]%nat 2 fiveState).
  - lia.
  - unfold int64_max. lia.
  - unfold int64_max, len. simpl. lia.
  - vm_compute. reflexivity.
Defined.

Lemma flattenEach_not_Panic sub st ids :
  (forall ptrs msg, sub ptrs <> Panic msg) ->
  forall msg, flattenEach sub st ids <> Panic msg.
Proof.
  intros Hsub msg. induction ids as [|id rest IH]; simpl; [done|].
  unfold Get. destruct (st !! id) as [[p|c|]|]; simpl; try done.
  - by destruct (flattenEach sub st rest).
  - unfold PointsTo.
    assert (forall ls, decodeLayers ls <> Panic msg) as Hdec.
    { induction ls as [|[x|] ls IHls]; simpl; try done.
      by destruct (decodeLayers ls). }
    specialize (Hdec (Layers c)).
    destruct (decodeLayers (Layers c)) as [ptrs| | |]; simpl; try done.
    specialize (Hsub ptrs msg). destruct (sub ptrs); simpl; try done.
    by destruct (flattenEach sub st rest).
Qed.

Lemma flattenStore_not_Panic st ids msg : flattenStore st ids <> Panic msg.
Proof.
  unfold flattenStore. generalize (S (length st)). intros d. revert ids msg.
  induction d as [|d IH]; intros ids msg; simpl; [done|].
  apply flattenEach_not_Panic. exact IH.
Qed.

Lemma primitivesOf_not_Panic st ids msg : primitivesOf st ids <> Panic msg.
Proof.
  induction ids as [|id rest IH]; simpl; [done|].
  unfold primitiveAt, Get.
  destruct (st !! id) as [[p|c|]|]; simpl; try done.
  by destruct (primitivesOf st rest).
Qed.

Lemma layersOf_returns st ids : wfStore st -> returnsNormally (layersOf st ids).
Proof.
  intros Hwf. unfold layersOf.
  pose proof (flattenStore_total st ids Hwf) as Hfuel.
  destruct (flattenStore st ids) as [flat|e|msg|] eqn:Hflat; simpl; try done.
  - pose proof (primitivesOf_not_OutOfFuel st flat).
    destruct (primitivesOf st flat) as [layers|e|msg|] eqn:Hprims; simpl; try done.
    by destruct (primitivesOf_not_Panic st flat msg).
  - by destruct (flattenStore_not_Panic st ids msg).
Qed.

Lemma wfStore_snoc_primitive st p :
  wfStore st -> wfStore (st ++ [Metadata_Primitive p]).
Proof.
  intros Hwf id c ptrs Hget Hptrs.
  destruct (decide (id < length st)%nat) as [Hlt|Hge].
  - rewrite lookup_app_l in Hget by lia. eapply Hwf; eassumption.
  - rewrite lookup_app_r in Hget by lia.
    destruct (id - length st)%nat; simpl in Hget; discriminate.
Qed.

Lemma Concat_returns s ids st :
  wfStore (store st) -> returnsSound (Concat s ids st).
Proof.
  intros Hwf. rewrite Concat_eq.
  pose proof (layersOf_returns (store st) ids Hwf) as Hret.
  destruct (layersOf (store st) ids); simpl in Hret; try done.
  split; [done|]. by apply wfStore_snoc_primitive.
Qed.

Lemma shardedCompact_returns c ids st :
  workerSound c -> wfStore (store st) ->
  returnsSound (DistributedCompactor_shardedCompact c ids st).
Proof.
  intros Hworker Hwf.
  unfold DistributedCompactor_shardedCompact. unfold bind at 1.
  rewrite Shard_eq. cbv zeta.
  pose proof (layersOf_returns (store st) ids Hwf) as Hret.
  destruct (layersOf (store st) ids) as [layers| | |]; simpl in Hret; try done.
  rewrite visitRanges_appendTask. unfold bind at 1.
  match goal with
  | |- context [workerFunc c ?tasks ?st1] =>
    destruct (Hworker tasks st1 Hwf) as [Hr Hwf2];
    destruct (workerFunc c tasks st1) as [[results| | |] st2]
  end; simpl in Hr, Hwf2; try done.
  destruct (decide (length results <> _)); [done|].
  by apply Concat_returns.
Qed.

Lemma groups_loop_returns compact ids childSize :
  0 < childSize -> len ids + childSize <= int64_max ->
  (forall group st, wfStore (store st) -> len group <= childSize ->
     returnsSound (compact group st)) ->
  forall fuel start results st,
    0 <= start -> wfStore (store st) ->
    (Z.to_nat (len ids - start) < fuel)%nat ->
    returnsSound (groups_loop compact fuel ids childSize start results st).
Proof.
  intros Hcs Hfit Hcompact. induction fuel as [|fuel IH];
    intros start results st Hstart Hwf Hfuel; [lia|].
  rewrite groups_loop_unfold.
  destruct (Z.ltb_spec start (len ids)) as [Hlt|Hge]; [|by split].
  cbv zeta. unfold int64_add.
  rewrite wrap64_small by (unfold int64_min, int64_max in *; lia).
  set (end_ := if start + childSize >? len ids then len ids else start + childSize).
  assert (start < end_ /\ end_ <= len ids /\ end_ <= start + childSize)
    as (Hend1 & Hend2 & Hend3).
  { subst end_. destruct (Z.gtb_spec (start + childSize) (len ids)); lia. }
  unfold bind at 1. unfold lift, slice.
  destruct (decide (0 <= start /\ start <= end_ /\ end_ <= len ids)) as [_|]; [|lia].
  set (group := take (Z.to_nat (end_ - start)) (drop (Z.to_nat start) ids)).
  destruct (Hcompact group st Hwf) as [Hr Hwf1].
  { subst group. unfold len. rewrite length_take. lia. }
  unfold bind.
  destruct (compact group st) as [[id| | |] st1]; simpl in Hr, Hwf1; try done.
  apply IH; [lia|exact Hwf1|lia].
Qed.

Lemma childSize_below m n (k : nat) :
  2 <= m -> m < n -> (1 <= k)%nat ->
  (forall j : nat, (1 <= j < k)%nat -> n ÷ m ^ Z.of_nat j > m) ->
  m ^ Z.of_nat k < n.
Proof.
  intros Hm Hmn Hk Hall.
  destruct (decide (k = 1%nat)) as [->|Hne]; [simpl; lia|].
  specialize (Hall (k - 1)%nat ltac:(lia)).
  assert (0 < m ^ Z.of_nat (k - 1)) as Hpos by (apply Z.pow_pos_nonneg; lia).
  rewrite Z.quot_div_nonneg in Hall by lia.
  assert (m ^ Z.of_nat k = m ^ Z.of_nat (k - 1) * m) as ->.
  { replace (Z.of_nat k) with (Z.succ (Z.of_nat (k - 1))) by lia.
    rewrite Z.pow_succ_r by lia. lia. }
  pose proof (Z.mul_div_le n (m ^ Z.of_nat (k - 1)) Hpos). nia.
Qed.

Lemma Distributed_Compact_sound_run c :
  2 <= maxFanIn c -> workerSound c ->
  forall fuel ids st,
    2 * len ids <= int64_max -> wfStore (store st) ->
    (length ids + 2 <= fuel)%nat ->
    returnsSound (DistributedCompactor_Compact fuel c ids st).
Proof.
  intros Hm Hworker. induction fuel as [|fuel IH];
    intros ids st Hlen Hwf Hfuel; [lia|].
  simpl. destruct (Z.leb_spec (len ids) (maxFanIn c)) as [Hbase|Hrec].
  - by apply shardedCompact_returns.
  - destruct (childSize_loop_exits (maxFanIn c) (len ids) Hm Hrec)
      as (k & Hk & Hrun & Hstop & Hall); [unfold int64_max in *; lia|].
    pose proof (childSize_below _ _ _ Hm Hrec Hk Hall) as Hbelow.
    assert (0 < maxFanIn c ^ Z.of_nat k) as Hpos by (apply Z.pow_pos_nonneg; lia).
    unfold bind at 1. unfold lift.
    rewrite Hrun by (unfold len in *; lia).
    set (childSize := maxFanIn c ^ Z.of_nat k) in *.
    assert (returnsSound
              (groups_loop (DistributedCompactor_Compact fuel c) fuel ids childSize 0 [] st))
      as [Hr Hwf1].
    { apply groups_loop_returns; [exact Hpos|lia| |lia|exact Hwf|unfold len in *; lia].
      intros group st0 Hwf0 Hgroup. apply IH; [lia|exact Hwf0|].
      unfold len in *. lia. }
    unfold bind.
    destruct (groups_loop (DistributedCompactor_Compact fuel c) fuel ids childSize 0 [] st)
      as [[results| | |] st1] eqn:Hgroups; simpl in Hr, Hwf1; try done.
    destruct (groups_loop_count _ ids childSize Hpos ltac:(lia) ltac:(lia)
                fuel 0 [] st results st1 ltac:(lia) Hgroups) as (n & Hn & _ & Hmore).
    simpl in Hn. specialize (Hmore ltac:(lia)).
    assert (2 <= childSize) as Htwo.
    { assert (maxFanIn c ^ 1 <= maxFanIn c ^ Z.of_nat k)
        by (apply Z.pow_le_mono_r; lia).
      subst childSize. lia. }
    apply IH; [unfold len in *; nia|exact Hwf1|unfold len in *; nia].
Qed.

(** X18. With a fan-in of at least 2, [DistributedCompactor.Compact]
    returns: on an acyclic store, with a worker that returns and keeps the
    store acyclic, and for a list of ids short enough for the loop
    arithmetic to stay within [int], a budget of [len(ids) + 2] suffices and
    the call neither panics nor runs on. *)
Theorem Distributed_Compact_returns (c : DistributedCompactor) (fuel : nat)
    (ids : list ID) (st : State) :
  2 <= maxFanIn c -> workerSound c ->
  2 * len ids <= int64_max -> wfStore (store st) ->
  (length ids + 2 <= fuel)%nat ->
  returnsNormally (fst (DistributedCompactor_Compact fuel c ids st)).
Proof.
  intros Hm Hworker Hlen Hwf Hfuel.
  by destruct (Distributed_Compact_sound_run c Hm Hworker fuel ids st Hlen Hwf Hfuel).
Qed.

Lemma runTask_returns s t st :
  wfStore (store st) -> returnsSound (runTask s t st).
Proof.
  intros Hwf. unfold runTask, bind, reading, create.
  pose proof (layersOf_returns (store st) (Inputs t) Hwf) as Hret.
  destruct (layersOf (store st) (Inputs t)); simpl in Hret; try done.
  split; [done|]. by apply wfStore_snoc_primitive.
Qed.

Lemma localWorker_returns s tasks : forall st,
  wfStore (store st) -> returnsSound (localWorker s tasks st).
Proof.
  induction tasks as [|t rest IH]; intros st Hwf; [by split|].
  simpl. unfold bind at 1.
  destruct (runTask_returns s t st Hwf) as [Hr Hwf1].
  destruct (runTask s t st) as [[id| | |] st1]; simpl in Hr, Hwf1; try done.
  destruct (IH st1 Hwf1) as [Hr2 Hwf2]. unfold bind.
  destruct (localWorker s rest st1) as [[ids| | |] st2]; simpl in Hr2, Hwf2; done.
Qed.

Lemma localWorker_sound s maxFanIn :
  workerSound (NewDistributedCompactor s maxFanIn (localWorker s)).
Proof. intros tasks st Hwf. by apply localWorker_returns. Qed.

Lemma fiveState_wf : wfStore (store fiveState).
Proof.
  intros [|[|[|[|[|id]]]]] c ptrs Hget; simpl in Hget; discriminate.
Qed.

Lemma Distributed_Compact_returns_witness :
  wfStore (store fiveState) /\
  returnsNormally
    (fst (DistributedCompactor_Compact 7 (localCompactor 2) [0; 1; 2; 3; 4]%nat fiveState)).
Proof.
  split; [exact fiveState_wf|].
  apply (Distributed_Compact_returns (localCompactor 2) 7 [0; 1; 2; 3; 4]%nat fiveState).
  - simpl. lia.
  - apply localWorker_sound.
  - unfold int64_max, len. simpl. lia.
  - exact fiveState_wf.
  - simpl. lia.
Defined.

Lemma callsWithin_refl {A : Type} m (r : Result A) st : callsWithin m st (r, st).
Proof. exists []. simpl. split; [by rewrite app_nil_r|constructor]. Qed.

Lemma callsWithin_step {A B : Type} m st (r1 : Result A) st1 (x : Result B * State) :
  callsWithin m st (r1, st1) -> callsWithin m st1 x -> callsWithin m st x.
Proof.
  intros (new1 & Hnew1 & Hall1) (new2 & Hnew2 & Hall2). simpl in Hnew1.
  exists (new1 ++ new2). split.
  - by rewrite Hnew2, Hnew1, <- app_assoc.
  - by apply Forall_app.
Qed.

Lemma shardedCompact_calls c ids st :
  workerSilent c -> len ids <= maxFanIn c ->
  callsWithin (maxFanIn c) st (DistributedCompactor_shardedCompact c ids st).
Proof.
  intros Hsilent Hbase.
  assert (callsWithin (maxFanIn c) st
            (@Ok unit tt, {| store := store st; calls := calls st ++ [CallShard ids] |}))
    as Hshard.
  { exists [CallShard ids]. split; [reflexivity|].
    constructor; [|constructor]. simpl. by apply Z.leb_le. }
  unfold DistributedCompactor_shardedCompact. unfold bind at 1.
  rewrite Shard_eq. cbv zeta.
  destruct (layersOf (store st) ids) as [layers| | |]; try exact Hshard.
  rewrite visitRanges_appendTask. unfold bind.
  match goal with
  | |- context [workerFunc c ?tasks ?st1] =>
    pose proof (Hsilent tasks st1) as Hcalls;
    destruct (workerFunc c tasks st1) as [[results| | |] st2]
  end; simpl in Hcalls;
    try (destruct Hshard as (new & Hnew & Hall); exists new; simpl in *;
         split; [congruence|exact Hall]).
  assert (callsWithin (maxFanIn c) st (@Ok unit tt, st2)) as Hworker.
  { destruct Hshard as (new & Hnew & Hall). exists new. simpl in *.
    split; [congruence|exact Hall]. }
  destruct (decide (length results <> _)); [exact Hworker|].
  eapply callsWithin_step; [exact Hworker|].
  exists [CallConcat results]. split; [|by repeat constructor].
  rewrite Concat_eq. by destruct (layersOf (store st2) results).
Qed.

Lemma groups_loop_calls compact m ids childSize :
  (forall group st, callsWithin m st (compact group st)) ->
  forall fuel start results st,
    callsWithin m st (groups_loop compact fuel ids childSize start results st).
Proof.
  intros Hcompact. induction fuel as [|fuel IH]; intros start results st;
    [apply callsWithin_refl|].
  rewrite groups_loop_unfold.
  destruct (start <? len ids); [|apply callsWithin_refl].
  cbv zeta. unfold bind at 1. unfold lift.
  destruct (slice ids start _) as [group| | |]; try apply callsWithin_refl.
  unfold bind. pose proof (Hcompact group st) as Hgroup.
  destruct (compact group st) as [[id| | |] st1]; try exact Hgroup.
  eapply callsWithin_step; [exact Hgroup|apply IH].
Qed.

Lemma Distributed_Compact_callsWithin c :
  workerSilent c ->
  forall fuel ids st,
    callsWithin (maxFanIn c) st (DistributedCompactor_Compact fuel c ids st).
Proof.
  intros Hsilent. induction fuel as [|fuel IH]; intros ids st;
    [apply callsWithin_refl|].
  simpl. destruct (Z.leb_spec (len ids) (maxFanIn c)) as [Hbase|Hrec].
  - by apply shardedCompact_calls.
  - unfold bind at 1. unfold lift.
    destruct (childSize_loop fuel (len ids) (maxFanIn c) (maxFanIn c))
      as [childSize| | |]; try apply callsWithin_refl.
    unfold bind.
    pose proof (groups_loop_calls (DistributedCompactor_Compact fuel c) (maxFanIn c)
                  ids childSize IH fuel 0 [] st) as Hgroups.
    destruct (groups_loop (DistributedCompactor_Compact fuel c) fuel ids childSize 0 [] st)
      as [[results| | |] st1]; try exact Hgroups.
    eapply callsWithin_step; [exact Hgroups|apply IH].
Qed.

(** X19. [DistributedCompactor.Compact] respects [maxFanIn]: whatever it
    returns, and however long the input, every [Shard] it calls (one per
    worker batch) is over at most [maxFanIn] references; its other calls are
    calls to [Concat], and it never calls [Merge] or [Compose] (the worker's
    own calls set aside). *)
Theorem Distributed_Compact_respects_fanIn (c : DistributedCompactor) (fuel : nat)
    (ids : list ID) (st : State) :
  workerSilent c ->
  exists new,
    calls (snd (DistributedCompactor_Compact fuel c ids st)) = calls st ++ new /\
    Forall (fun call => respectsFanIn (maxFanIn c) call = true) new.
Proof.
  intros Hsilent. by apply Distributed_Compact_callsWithin.
Qed.

Lemma runTask_silent s t st : calls (snd (runTask s t st)) = calls st.
Proof.
  unfold runTask, bind, reading, create.
  by destruct (layersOf (store st) (Inputs t)).
Qed.

Lemma localWorker_silent s maxFanIn :
  workerSilent (NewDistributedCompactor s maxFanIn (localWorker s)).
Proof.
  unfold workerSilent. simpl. intros tasks.
  induction tasks as [|t rest IH]; intros st; [reflexivity|].
  simpl. unfold bind at 1. pose proof (runTask_silent s t st) as Htask.
  destruct (runTask s t st) as [[id| | |] st1]; simpl in *; try exact Htask.
  unfold bind. specialize (IH st1).
  destruct (localWorker s rest st1) as [[ids| | |] st2]; simpl in *; congruence.
Qed.

Lemma Distributed_Compact_respects_fanIn_witness :
  exists new,
    calls (snd (DistributedCompactor_Compact 8 (localCompactor 2)
                  [0; 1; 2; 3; 4]%nat fiveState)) = calls fiveState ++ new /\
    Forall (fun call => respectsFanIn (maxFanIn (localCompactor 2)) call = true) new.
Proof.
  apply (Distributed_Compact_respects_fanIn (localCompactor 2) 8
           [0; 1; 2; 3; 4]%nat fiveState).
  apply localWorker_silent.
Defined.

(** X20. An input that flattens to at most one layer is never merged:
    [Storage.Compact] composes the flattened list as it is.  In particular
    [Compact] of the empty list creates a composite without layers. *)
Theorem Compact_short_input (fuel : nat) (s : Storage) (ids flat : list ID)
    (layers : list Primitive) (st : State) :
  flattenStore (store st) ids = Ok flat ->
  primitivesOf (store st) flat = Ok layers ->
  (length flat <= 1)%nat ->
  Storage_Compact (S fuel) s ids st =
  (Ok (length (store st)),
   {| store := store st ++ [Metadata_Composite {| Layers := Some <$> flat |}];
      calls := calls st ++ [CallCompose flat] |}).
Proof.
  intros Hflat Hprims Hshort.
  rewrite (Compact_step _ _ _ _ _ _ Hflat Hprims). simpl.
  pose proof (primitivesOf_length _ _ _ Hprims) as Hlen.
  pose proof (indexOfCompacted_spec (levelFactor s) layers) as Hspec. simpl in Hspec.
  destruct (decide (indexOfCompacted (levelFactor s) layers = length layers));
    [apply Compose_eq|].
  destruct Hspec as [[Hfull _]|[Hlt _]]; [done|lia].
Qed.

Lemma Compact_short_input_witness :
  Storage_Compact (S 0) exampleStorage [] scenarioState =
  (Ok (length (store scenarioState)),
   {| store := store scenarioState ++ [Metadata_Composite {| Layers := Some <$> [] |}];
      calls := calls scenarioState ++ [CallCompose []] |}).
Proof.
  apply (Compact_short_input 0 exampleStorage [] [] [] scenarioState).
  - reflexivity.
  - reflexivity.
  - simpl. lia.
Defined.
